(** * einsteinpy.symbolic.tensor: index configurations and index raising / lowering

    A shallow embedding of [src/einsteinpy/symbolic/tensor.py]: the
    configuration validator [_config_checker], the action list
    [_difference_list], the index transform [_change_config], the classes
    [Tensor] and [BaseRelativityTensor], together with a model of the sympy and
    numpy array primitives they call. *)

From Stdlib Require Import String Ascii ZArith DecimalString Bool Arith Lia List.
From Stdlib Require Import Sorted Permutation Ring_theory Ring.
Import ListNotations.

Set Implicit Arguments.
Local Open Scope string_scope.
Local Open Scope list_scope.
Local Open Scope nat_scope.

(** ** Python exceptions and results *)

(** The exceptions the module raises or lets through, with their message
    (a bare [raise ValueError] carries the empty message). *)
Inductive exn : Type :=
| TypeError (msg : string)
| ValueError (msg : string)
| IndexError (msg : string)
| KeyError (msg : string).

Inductive result (A : Type) : Type :=
| Ok (a : A)
| Err (e : exn).

Arguments Ok {A} a.
Arguments Err {A} e.

Definition bind {A B : Type} (r : result A) (k : A -> result B) : result B :=
  match r with
  | Ok a => k a
  | Err e => Err e
  end.

Notation "x <- r ;; k" := (bind r (fun x => k))
  (at level 61, r at next level, right associativity).

(** ** Python values reaching a [config] parameter *)

Inductive pyobj : Type :=
| PyStr (s : string)
| PyNone
| PyInt (z : Z)
| PySeq (items : list string).

(** The text of a [str] object (consulted only after [isinstance(_, str)]). *)
Definition str_value (o : pyobj) : string :=
  match o with
  | PyStr s => s
  | _ => EmptyString
  end.

(** [len(o)]: defined on strings and sequences, a TypeError otherwise. *)
Definition py_len (o : pyobj) : result nat :=
  match o with
  | PyStr s => Ok (String.length s)
  | PySeq items => Ok (length items)
  | PyNone => Err (TypeError "object of type 'NoneType' has no len()")
  | PyInt _ => Err (TypeError "object of type 'int' has no len()")
  end.

(** ** Configuration validator *)

(** The loop [for ch in config] of [_config_checker], with its early
    [return False]. *)
Fixpoint config_loop (config : string) : bool :=
  match config with
  | EmptyString => true
  | String ch rest =>
      if negb (Ascii.eqb ch "l") && negb (Ascii.eqb ch "u")
      then false
      else config_loop rest
  end.

Definition _config_checker (config : pyobj) : bool :=
  match config with
  | PyStr s => config_loop s
  | _ => false
  end.

(** ** Config diff engine *)

(** Actions are the integers the code appends to [difflist]. *)
Definition NoOp : Z := 0.
Definition Raise : Z := 1.
Definition Lower : Z := -1.

(** [zip(newconfig, oldconfig)] *)
Fixpoint zip (a b : string) : list (ascii * ascii) :=
  match a, b with
  | String x a', String y b' => (x, y) :: zip a' b'
  | _, _ => []
  end.

Definition _difference_list (newconfig oldconfig : string) : list Z :=
  fold_left
    (fun difflist '(n_ch, o_ch) =>
       if Ascii.eqb n_ch o_ch then (difflist ++ [0%Z])%list
       else if Ascii.eqb n_ch "u" then (difflist ++ [1%Z])%list
       else (difflist ++ [(-1)%Z])%list)
    (zip newconfig oldconfig) [].

(** The spec writes [Diff(old, new)], the code [_difference_list(new, old)]. *)
Definition Diff (old new : string) : list Z := _difference_list new old.

(** The action the loop body appends for one pair of characters. *)
Definition action_of (p : ascii * ascii) : Z :=
  let '(n_ch, o_ch) := p in
  if Ascii.eqb n_ch o_ch then 0%Z
  else if Ascii.eqb n_ch "u" then 1%Z else (-1)%Z.

(** Every character of [s] is ['u'] or ['l']. *)
Fixpoint only_markers (s : string) : Prop :=
  match s with
  | EmptyString => True
  | String ch rest => (ch = "u"%char \/ ch = "l"%char) /\ only_markers rest
  end.

(** A valid configuration in the words of the specification: a non-empty
    string made of the two markers. *)
Definition spec_valid_configuration (c : pyobj) : Prop :=
  exists s, c = PyStr s /\ s <> EmptyString /\ only_markers s.

(** ** Python list primitives *)

(** [l.insert(n, x)] *)
Fixpoint insert_at {A : Type} (n : nat) (x : A) (l : list A) : list A :=
  match n, l with
  | O, _ => x :: l
  | S _, [] => [x]
  | S n', y :: l' => y :: insert_at n' x l'
  end.

(** What is left of [l] after [l.pop(n)], whatever [n]. *)
Fixpoint pop_at {A : Type} (n : nat) (l : list A) : list A :=
  match n, l with
  | _, [] => []
  | O, _ :: l' => l'
  | S n', y :: l' => y :: pop_at n' l'
  end.

(** [l.pop(n)] as a statement: the list left, or [IndexError]. *)
Definition py_pop {A : Type} (n : nat) (l : list A) : result (list A) :=
  if n <? length l then Ok (pop_at n l)
  else Err (IndexError "pop index out of range").

(** [enumerate(l)] *)
Definition enumerate {A : Type} (l : list A) : list (nat * A) :=
  combine (seq 0 (length l)) l.

(** Position of the first [x] in [l] ([length l] when absent). *)
Fixpoint index_of (x : nat) (l : list nat) : nat :=
  match l with
  | [] => 0
  | y :: l' => if x =? y then 0 else S (index_of x l')
  end.

(** [len(set(l)) == len(l)] *)
Fixpoint no_repeat (l : list nat) : bool :=
  match l with
  | [] => true
  | x :: l' => negb (existsb (Nat.eqb x) l') && no_repeat l'
  end.

(** [sorted] on pairs of naturals (lexicographic, stable insertion). *)
Definition pair_leb (a b : nat * nat) : bool :=
  (fst a <? fst b) || ((fst a =? fst b) && (snd a <=? snd b)).

Fixpoint sorted_insert (a : nat * nat) (l : list (nat * nat)) : list (nat * nat) :=
  match l with
  | [] => [a]
  | b :: l' => if pair_leb a b then a :: b :: l' else b :: sorted_insert a l'
  end.

Definition sorted (l : list (nat * nat)) : list (nat * nat) :=
  fold_right sorted_insert [] l.

(** ** Sympy scalars

    The entries of an array are sympy expressions.  The module uses them only
    through sympy's own operations, which form the interface below; [=] on
    [Expr] stands for symbolic equality. *)
Class SympyExpr : Type := {
  Expr : Type;
  S_Zero : Expr;
  S_One : Expr;
  expr_add : Expr -> Expr -> Expr;
  expr_mul : Expr -> Expr -> Expr;
  (** [sympy.simplify] on a scalar *)
  simplify : Expr -> Expr;
  (** the arguments of [subs] and the substitution on a scalar *)
  SubsArgs : Type;
  expr_subs : SubsArgs -> Expr -> Expr;
  (** [free_symbols] and [atoms(...)]: a symbol is given by its name and an
      atom by its printed form (symbols of one name that differ by their
      assumptions are not told apart) *)
  free_symbols : Expr -> list string;
  atoms_AppliedUndef : Expr -> list string;
  atoms_UndefinedFunction : Expr -> list string
}.

Section Arrays.
Context {SE : SympyExpr}.

(** ** N-dimensional arrays

    A [sympy.Array] (and the numpy array made of it) is given by its shape and
    by the entry found at each multi-index. *)
Record NDimArray : Type := mkArray {
  shape : list nat;
  item : list nat -> Expr
}.

Definition rank (a : NDimArray) : nat := length (shape a).

(** [tensorproduct(a, b)]: the shapes are concatenated and the entry at
    [ia ++ ib] is [a[ia] * b[ib]]. *)
Definition tensorproduct (a b : NDimArray) : NDimArray :=
  mkArray (shape a ++ shape b)
          (fun idx => expr_mul (item a (firstn (rank a) idx))
                               (item b (skipn (rank a) idx))).

(** [[dim for i, dim in enumerate(shape) if i not in taken_dims]], with
    [taken_dims = {p, q}] and [k] the position of the head of [l]. *)
Fixpoint remaining_from (k p q : nat) (l : list nat) : list nat :=
  match l with
  | [] => []
  | x :: l' =>
      if (k =? p) || (k =? q) then remaining_from (S k) p q l'
      else x :: remaining_from (S k) p q l'
  end.

(** The multi-index of rank [n] whose axes [p] and [q] are both [js] and
    whose other axes are read from [idx], in order ([pos] is the axis of the
    next entry). *)
Fixpoint contracted_index (n pos p q js : nat) (idx : list nat) : list nat :=
  match n with
  | O => []
  | S n' =>
      if (pos =? p) || (pos =? q)
      then js :: contracted_index n' (S pos) p q js idx
      else match idx with
           | [] => 0 :: contracted_index n' (S pos) p q js []
           | j :: idx' => j :: contracted_index n' (S pos) p q js idx'
           end
  end.

(** [isum = S.Zero; for js in range(dim): isum += f(js)] *)
Definition isum (dim : nat) (f : nat -> Expr) : Expr :=
  fold_left (fun acc js => expr_add acc (f js)) (seq 0 dim) S_Zero.

(** [tensorcontraction(a, (p, q))]: the checks sympy makes on the axes, then
    the sum over the diagonal of the axes [p] and [q] (where no axis is
    left sympy returns the scalar, here the rank-0 array). *)
Definition tensorcontraction (a : NDimArray) (p q : nat) : result NDimArray :=
  match nth_error (shape a) p with
  | None => Err (IndexError "tuple index out of range")
  | Some dim =>
      if p =? q then Err (ValueError "dimension specified more than once")
      else
        match nth_error (shape a) q with
        | None => Err (IndexError "tuple index out of range")
        | Some dq =>
            if negb (dim =? dq)
            then Err (ValueError "cannot contract between axes of different dimension")
            else Ok (mkArray (remaining_from 0 p q (shape a))
                             (fun idx =>
                                isum dim (fun js =>
                                  item a (contracted_index (rank a) 0 p q js idx))))
        end
  end.

(** [simplify] applied to an array simplifies every entry. *)
Definition simplify_array (a : NDimArray) : NDimArray :=
  mkArray (shape a) (fun idx => simplify (item a idx)).

(** [a.transpose(order)]: axis [j] of the result is axis [order[j]] of [a]. *)
Definition transpose (a : NDimArray) (order : list nat) : NDimArray :=
  mkArray (map (fun ax => nth ax (shape a) 0) order)
          (fun idx =>
             item a (map (fun ax => nth (index_of ax order) idx 0)
                         (seq 0 (rank a)))).

(** [np.moveaxis(a, source, destination)]: both axis lists are normalised
    (in range, without repetition), then the array is transposed by the
    order numpy builds from them. *)
Definition moveaxis (a : NDimArray) (source destination : list nat)
  : result NDimArray :=
  if negb (forallb (fun ax => ax <? rank a) source
           && forallb (fun ax => ax <? rank a) destination)
  then Err (IndexError "axis is out of bounds")
  else if negb (no_repeat source && no_repeat destination)
  then Err (ValueError "repeated axis")
  else if negb (length source =? length destination)
  then Err (ValueError "source and destination must have the same number of elements")
  else
    let order :=
      filter (fun n => negb (existsb (Nat.eqb n) source)) (seq 0 (rank a)) in
    let order :=
      fold_left (fun order '(dest, src) => insert_at dest src order)
                (sorted (combine destination source)) order in
    Ok (transpose a order).

(** ** The metric collaborator *)

(** Modelled from the spec: the class [MetricTensor] (einsteinpy.symbolic.metric)
    is not part of this module.  The transform uses it only through
    [metric.lower_config().tensor()], the covariant form, and
    [metric.lower_config().inv().tensor()], the contravariant form, both
    rank-2 arrays. *)
Record MetricTensor : Type := {
  covariant_form : NDimArray;
  contravariant_form : NDimArray
}.

(** ** Tensor *)

Record Tensor : Type := mkTensor {
  arr : NDimArray;
  _config : string;
  _order : nat
}.

(** The [arr] argument of the constructor. *)
Inductive py_arr_arg : Type :=
| ArgNested (a : NDimArray)
    (** a list, tuple, ndarray, int, float or Expr, given by the array
        [sympy.Array(arr)] makes of it *)
| ArgArray (a : NDimArray)   (** a [sympy.Array] *)
| ArgNone                    (** [None] *)
| ArgOther                   (** any other object *)
| ArgRagged.
    (** a list or tuple of which [sympy.Array(arr)] makes no array: nested
        sequences of unequal lengths *)

(** [Tensor.__init__(self, arr, config)] *)
Definition Tensor_init (arr : py_arr_arg) (config : pyobj) : result Tensor :=
  self_arr <-
    match arr with
    | ArgNested a => Ok a
    | ArgRagged => Err (ValueError "could not determine shape unambiguously")
    | ArgArray a => Ok a
    | _ => Err (TypeError "Only multi-dimensional list or Sympy Array is expected")
    end ;;
  if _config_checker config
  then Ok {| arr := self_arr;
             _config := str_value config;
             _order := String.length (str_value config) |}
  else Err (TypeError
    "config is either not of type 'str' or does contain characters other than 'l' or 'u'").

(** The default of the [config] parameter. *)
Definition default_config : pyobj := PyStr "ll".

Definition order (self : Tensor) : nat := _order self.
Definition config (self : Tensor) : string := _config self.
Definition tensor (self : Tensor) : NDimArray := arr self.

(** [Array.subs] with the arguments [args] substitutes in every entry. *)
Definition array_subs (args : SubsArgs) (a : NDimArray) : NDimArray :=
  mkArray (shape a) (fun idx => expr_subs args (item a idx)).

(** [Tensor.subs(self, ...)], called with the arguments [args] *)
Definition subs (self : Tensor) (args : SubsArgs) : result Tensor :=
  Tensor_init (ArgArray (array_subs args (tensor self))) default_config.

(** [Tensor.simplify(self)] returns the array. *)
Definition Tensor_simplify (self : Tensor) : NDimArray :=
  simplify_array (tensor self).

(** ** Index transform engine *)

(** [met_dict[action]] *)
Definition met_dict (metric : MetricTensor) (action : Z) : result NDimArray :=
  if (action =? -1)%Z then Ok (covariant_form metric)
  else if (action =? 1)%Z then Ok (contravariant_form metric)
  else Err (KeyError "").

(** The body of the loop of [chain_config_change]. *)
Definition chain_step (metric : MetricTensor) (i : nat) (action : Z)
  (t : NDimArray) : result NDimArray :=
  if (action =? 0)%Z then Ok t
  else
    m <- met_dict metric action ;;
    c <- tensorcontraction (tensorproduct m t) 1 (2 + i) ;;
    let t := simplify_array c in
    let tmp := t in
    let source := seq 0 (length (shape t)) in
    let dest := seq 0 (length (shape t)) in
    dest <- py_pop i dest ;;
    let dest := insert_at 0 i dest in
    moveaxis tmp source dest.

Fixpoint chain_loop (metric : MetricTensor) (actions : list (nat * Z))
  (t : NDimArray) : result NDimArray :=
  match actions with
  | [] => Ok t
  | (i, action) :: rest =>
      t' <- chain_step metric i action t ;;
      chain_loop metric rest t'
  end.

Definition chain_config_change (tensor_ : Tensor) (metric : MetricTensor)
  (newconfig : string) : result NDimArray :=
  let t := tensor tensor_ in
  let difflist := _difference_list newconfig (config tensor_) in
  chain_loop metric (enumerate difflist) t.

(** [_change_config(tensor, metric, newconfig)]: [newconfig] is any object;
    the guard takes its length first, then asks the validator, and the loop
    is entered with what is by then a string. *)
Definition _change_config (tensor_ : Tensor) (metric : MetricTensor)
  (newconfig : pyobj) : result NDimArray :=
  len_newconfig <- py_len newconfig ;;
  if negb ((len_newconfig =? String.length (config tensor_))
           && _config_checker newconfig)
  then Err (ValueError "")
  else chain_config_change tensor_ metric (str_value newconfig).

(** ** The transform as the specification describes it *)

(** The axes of [a] re-ordered so that axis 0 sits at position [i] and the
    other axes keep their relative order. *)
Definition move_axis0_to (i : nat) (a : NDimArray) : NDimArray :=
  mkArray (insert_at i (hd 0 (shape a)) (tl (shape a)))
          (fun idx => item a (nth i idx 0 :: pop_at i idx)).

(** Contravariant form for Raise, covariant form for Lower. *)
Definition spec_metric_form (metric : MetricTensor) (action : Z) : NDimArray :=
  if (action =? Raise)%Z then contravariant_form metric
  else covariant_form metric.

(** One axis: product with the metric form, contraction of the product axes
    [(1, 2 + i)], simplification, re-insertion of the new axis at [i]. *)
Definition spec_step (metric : MetricTensor) (i : nat) (action : Z)
  (t : NDimArray) : result NDimArray :=
  if (action =? NoOp)%Z then Ok t
  else
    c <- tensorcontraction
           (tensorproduct (spec_metric_form metric action) t) 1 (2 + i) ;;
    Ok (move_axis0_to i (simplify_array c)).

(** The action list, left to right from axis [i]. *)
Fixpoint spec_transform_from (metric : MetricTensor) (i : nat)
  (actions : list Z) (t : NDimArray) : result NDimArray :=
  match actions with
  | [] => Ok t
  | action :: rest =>
      t' <- spec_step metric i action t ;;
      spec_transform_from metric (S i) rest t'
  end.

Definition spec_transform (metric : MetricTensor) (old new : string)
  (t : NDimArray) : result NDimArray :=
  spec_transform_from metric 0 (Diff old new) t.

(** ** What one step computes *)

(** The entry at [idx] after axis [i] of [t] has been contracted with the
    second axis of [m] (of extent [d]): the simplified sum over [js] of
    [m[idx_i, js] * t[idx with js at axis i]]. *)
Definition raised_entry (m t : NDimArray) (d i : nat) (idx : list nat) : Expr :=
  simplify
    (isum d (fun js => expr_mul (item m [nth i idx 0; js])
                                (item t (insert_at i js (pop_at i idx))))).

Definition raise_at (m : NDimArray) (d i : nat) (t : NDimArray) : NDimArray :=
  mkArray (shape t) (raised_entry m t d i).

(** An action of the diff engine. *)
Definition is_action (a : Z) : Prop := a = 0%Z \/ a = 1%Z \/ a = (-1)%Z.

(** The array the action list computes from axis [i0] on, entry by entry. *)
Fixpoint sem_loop (metric : MetricTensor) (d i0 : nat) (actions : list Z)
  (t : NDimArray) : NDimArray :=
  match actions with
  | [] => t
  | action :: rest =>
      sem_loop metric d (S i0) rest
        (if (action =? 0)%Z then t
         else raise_at (spec_metric_form metric action) d i0 t)
  end.

(** The actions of a conversion and of the conversion back, on one axis. *)
Definition opposite (a b : Z) : Prop :=
  (a = 0%Z /\ b = 0%Z) \/ (a = 1%Z /\ b = (-1)%Z) \/ (a = (-1)%Z /\ b = 1%Z).

(** ** Equality of arrays *)

(** [idx] is a multi-index of an array of shape [s]. *)
Definition valid_index (s idx : list nat) : Prop := Forall2 lt idx s.

(** Same shape, and the same entry at every multi-index. *)
Definition array_eq (a b : NDimArray) : Prop :=
  shape a = shape b /\
  forall idx, valid_index (shape a) idx -> item a idx = item b idx.

(** Every axis has extent [d]. *)
Definition uniform_shape (d : nat) (a : NDimArray) : Prop :=
  Forall (fun x => x = d) (shape a).

(** Both forms of the metric are [d] by [d]. *)
Definition square_metric (d : nat) (metric : MetricTensor) : Prop :=
  shape (covariant_form metric) = [d; d] /\
  shape (contravariant_form metric) = [d; d].

(** The Kronecker delta. *)
Definition delta (a b : nat) : Expr := if a =? b then S_One else S_Zero.

(** The matrix product of [m] and [m'] (both [d] by [d]) is the identity. *)
Definition product_is_identity (d : nat) (m m' : NDimArray) : Prop :=
  forall a b, a < d -> b < d ->
    isum d (fun k => expr_mul (item m [a; k]) (item m' [k; b])) = delta a b.

(** The contravariant form is the exact inverse of the covariant form. *)
Definition exact_inverse (d : nat) (metric : MetricTensor) : Prop :=
  product_is_identity d (contravariant_form metric) (covariant_form metric) /\
  product_is_identity d (covariant_form metric) (contravariant_form metric).

(** ** BaseRelativityTensor *)

(** A [syms], [variables] or [functions] argument: symbols and function
    atoms are given by name. *)
Inductive pycoll : Type :=
| CList (items : list string)
| CTuple (items : list string)
| CSet (items : list string)
| CNotColl.                      (** neither a list, a tuple nor a set *)

Definition coll_items (c : pycoll) : list string :=
  match c with
  | CList l | CTuple l | CSet l => l
  | CNotColl => []
  end.

(** [isinstance(c, (list, tuple))] *)
Definition is_list_or_tuple (c : pycoll) : bool :=
  match c with
  | CList _ | CTuple _ => true
  | _ => false
  end.

(** [isinstance(c, (list, tuple, set))] *)
Definition is_list_tuple_or_set (c : pycoll) : bool :=
  match c with
  | CNotColl => false
  | _ => true
  end.

(** [not c] on a collection: true when it is empty. *)
Definition py_not (c : pycoll) : bool :=
  match coll_items c with
  | [] => true
  | _ :: _ => false
  end.


(** Every multi-index of an array of shape [s], in row-major order. *)
Fixpoint all_indices (s : list nat) : list (list nat) :=
  match s with
  | [] => [[]]
  | d :: s' => flat_map (fun k => map (cons k) (all_indices s')) (seq 0 d)
  end.

Definition array_entries (a : NDimArray) : list Expr :=
  map (item a) (all_indices (shape a)).

(** [arr.free_symbols]: a set, listed without repetition. *)
Definition array_free_symbols (a : NDimArray) : list string :=
  nodup string_dec (flat_map free_symbols (array_entries a)).

(** [arr.atoms(AppliedUndef).union(arr.atoms(UndefinedFunction))] *)
Definition array_undefined_functions (a : NDimArray) : list string :=
  nodup string_dec
        (flat_map atoms_AppliedUndef (array_entries a)
         ++ flat_map atoms_UndefinedFunction (array_entries a)).

(** [l.sort(key=lambda var: var.name)] *)
Fixpoint name_insert (v : string) (l : list string) : list string :=
  match l with
  | [] => [v]
  | w :: l' => if String.leb v w then v :: w :: l' else w :: name_insert v l'
  end.

Definition sort_by_name (l : list string) : list string :=
  fold_right name_insert [] l.

Record BaseRelativityTensor : Type := mkBaseRelativityTensor {
  base : Tensor;
  _parent_metric : option MetricTensor;
  name : option string;
  syms : list string;
  dims : nat;
  variables : list string;
  functions : list string
}.


(** [BaseRelativityTensor.__init__] *)
Definition BaseRelativityTensor_init (arr_ : py_arr_arg) (syms_ : pycoll)
  (config_ : pyobj) (parent_metric : option MetricTensor)
  (variables_ functions_ : pycoll) (name_ : option string)
  : result BaseRelativityTensor :=
  self <- Tensor_init arr_ config_ ;;
  if is_list_or_tuple syms_ then
    let self_syms := coll_items syms_ in
    let self_dims := length self_syms in
    if is_list_tuple_or_set variables_ && is_list_tuple_or_set functions_ then
      let self_variables :=
        if py_not variables_
        then sort_by_name
               (filter (fun v => negb (existsb (String.eqb v) self_syms))
                       (array_free_symbols (arr self)))
        else coll_items variables_ in
      let self_functions :=
        if py_not functions_
        then array_undefined_functions (arr self)
        else coll_items functions_ in
      Ok {| base := self;
            _parent_metric := parent_metric;
            name := name_;
            syms := self_syms;
            dims := self_dims;
            variables := self_variables;
            functions := self_functions |}
    else Err (TypeError
      "arguments variables and functions should be a list, tuple or set")
  else Err (TypeError "syms should be a list or tuple").

End Arrays.

Arguments NDimArray {SE}.
Arguments Tensor {SE}.
Arguments MetricTensor {SE}.
Arguments BaseRelativityTensor {SE}.
Arguments py_arr_arg {SE}.

(** ** Two instances of the scalar interface *)

(** Plain integers: every entry is a number, nothing to simplify or to
    substitute. *)
Definition ZExpr : SympyExpr :=
  {| Expr := Z;
     S_Zero := 0%Z;
     S_One := 1%Z;
     expr_add := Z.add;
     expr_mul := Z.mul;
     simplify := fun e => e;
     SubsArgs := unit;
     expr_subs := fun _ e => e;
     free_symbols := fun _ => [];
     atoms_AppliedUndef := fun _ => [];
     atoms_UndefinedFunction := fun _ => [] |}.

(** Expression trees over integers, symbols and applications of undefined
    functions. *)
Inductive sexpr : Type :=
| SNum (z : Z)
| SSym (name : string)
| SAdd (a b : sexpr)
| SMul (a b : sexpr)
| SApp (f : string) (arg : sexpr).

Fixpoint sexpr_subs (args : string * sexpr) (e : sexpr) : sexpr :=
  match e with
  | SNum z => SNum z
  | SSym x => if String.eqb x (fst args) then snd args else SSym x
  | SAdd a b => SAdd (sexpr_subs args a) (sexpr_subs args b)
  | SMul a b => SMul (sexpr_subs args a) (sexpr_subs args b)
  | SApp f a => SApp f (sexpr_subs args a)
  end.

Fixpoint sexpr_free_symbols (e : sexpr) : list string :=
  match e with
  | SNum _ => []
  | SSym x => [x]
  | SAdd a b | SMul a b => sexpr_free_symbols a ++ sexpr_free_symbols b
  | SApp _ a => sexpr_free_symbols a
  end.

(** The printed form of an expression, fully parenthesised. *)
Fixpoint sexpr_str (e : sexpr) : string :=
  match e with
  | SNum z => NilZero.string_of_int (Z.to_int z)
  | SSym x => x
  | SAdd a b => ("(" ++ sexpr_str a ++ " + " ++ sexpr_str b ++ ")")%string
  | SMul a b => ("(" ++ sexpr_str a ++ "*" ++ sexpr_str b ++ ")")%string
  | SApp f a => (f ++ "(" ++ sexpr_str a ++ ")")%string
  end.

(** The applications of undefined functions occurring in [e], each by its
    printed form: [f(x)] and [f(y)] are two atoms. *)
Fixpoint sexpr_applied (e : sexpr) : list string :=
  match e with
  | SNum _ | SSym _ => []
  | SAdd a b | SMul a b => sexpr_applied a ++ sexpr_applied b
  | SApp f a => sexpr_str (SApp f a) :: sexpr_applied a
  end.

Definition SymExpr : SympyExpr :=
  {| Expr := sexpr;
     S_Zero := SNum 0;
     S_One := SNum 1;
     expr_add := SAdd;
     expr_mul := SMul;
     simplify := fun e => e;
     SubsArgs := string * sexpr;
     expr_subs := sexpr_subs;
     free_symbols := sexpr_free_symbols;
     atoms_AppliedUndef := sexpr_applied;
     atoms_UndefinedFunction := fun _ => [] |}.

(** ** Arrays given by their entries *)

(** The rank-1 array [[e0, e1, ...]]. *)
Definition vector {SE : SympyExpr} (l : list Expr) : NDimArray :=
  mkArray [length l]
          (fun idx => nth (nth 0 idx 0) l S_Zero).

(** The rank-2 array of the rows [rows], each of length [cols]. *)
Definition matrix {SE : SympyExpr} (cols : nat) (rows : list (list Expr))
  : NDimArray :=
  mkArray [length rows; cols]
          (fun idx => nth (nth 1 idx 0) (nth (nth 0 idx 0) rows []) S_Zero).

(** The entries of an array in row-major order. *)
Definition tolist {SE : SympyExpr} (a : NDimArray) : list Expr :=
  array_entries a.

(** ** Concrete tensors used in the examples *)

Module Examples.

(** The rank-1 array [[x]] with configuration ['u']. *)
Definition x_up : @Tensor SymExpr :=
  {| arr := vector (SE := SymExpr) [SSym "x"]; _config := "u"; _order := 1 |}.

(** [[1, 2, 3]], a rank-1 array of integers. *)
Definition v123 : @NDimArray ZExpr := vector (SE := ZExpr) [1; 2; 3]%Z.

(** A 2 by 2 metric over the integers whose two forms are inverse to each
    other. *)
Definition g_cov : @NDimArray ZExpr :=
  matrix (SE := ZExpr) 2 [[1; 1]; [0; 1]]%Z.
Definition g_contra : @NDimArray ZExpr :=
  matrix (SE := ZExpr) 2 [[1; -1]; [0; 1]]%Z.
Definition g : @MetricTensor ZExpr :=
  {| covariant_form := g_cov; contravariant_form := g_contra |}.

(** A rank-2 tensor over the same two coordinates. *)
Definition t_ll_arr : @NDimArray ZExpr :=
  matrix (SE := ZExpr) 2 [[1; 2]; [3; 4]]%Z.


End Examples.

(** ** The remaining methods of [BaseRelativityTensor] *)

Section Methods.
Context {SE : SympyExpr}.

(** The property [parent_metric]. *)
Definition parent_metric (self : BaseRelativityTensor) : option MetricTensor :=
  _parent_metric self.

(** [symbols(self)] *)
Definition symbols (self : BaseRelativityTensor) : list string := syms self.

(** [sympy.lambdify(args, arr, np)] builds a numeric callable; the callables
    and the builder are those of sympy and numpy, taken here on the argument
    lists for which sympy returns a callable (it refuses a list that names
    a symbol twice). *)
Variable Callable : Type.
Variable lambdify : list string -> NDimArray -> Callable.

(** [tensor_lambdify(self, ...)], called with the positional arguments
    [args]: the argument tuple and the callable. *)
Definition tensor_lambdify (self : BaseRelativityTensor) (args : list string)
  : list string * Callable :=
  if length args =? 0 then
    let numeric_arr :=
      lambdify (syms self ++ variables self) (arr (base self)) in
    let arg_list := syms self ++ variables self in
    (arg_list, numeric_arr)
  else
    let numeric_arr := lambdify args (arr (base self)) in
    let arg_list := args in
    (arg_list, numeric_arr).

End Methods.

(** ** Predicates used by the further properties *)

Section Predicates.
Context {SE : SympyExpr}.

(** Names in non-decreasing order. *)
Definition name_le (a b : string) : Prop := String.leb a b = true.

(** The form [m] is the [d] by [d] identity matrix. *)
Definition identity_form (d : nat) (m : NDimArray) : Prop :=
  forall a b, a < d -> b < d -> item m [a; b] = delta a b.

(** On one axis: [a] converts the first configuration to the second, [b]
    the second to the third, [c] the first to the third. *)
Definition composed (abc : Z * Z * Z) : Prop :=
  let '(a, b, c) := abc in
  (a = 0%Z /\ c = b) \/ (b = 0%Z /\ c = a) \/ (opposite a b /\ c = 0%Z).

(** Every axis the action list acts on, counted from [i0], is an axis of
    the shape [s] with extent [d]. *)
Fixpoint acted_axes (d i0 : nat) (actions : list Z) (s : list nat) : Prop :=
  match actions with
  | [] => True
  | action :: rest =>
      (action <> 0%Z -> nth_error s i0 = Some d) /\
      acted_axes d (S i0) rest s
  end.

(** The first axis the action list acts on, counted from [i0], with its
    action. *)
Fixpoint first_action (i0 : nat) (actions : list Z) : option (nat * Z) :=
  match actions with
  | [] => None
  | action :: rest =>
      if (action =? 0)%Z then first_action (S i0) rest
      else Some (i0, action)
  end.

End Predicates.

(** ** More concrete tensors *)

Module MoreExamples.

(** A 2 by 3 array of integers. *)
Definition t23 : @NDimArray ZExpr :=
  matrix (SE := ZExpr) 3 [[1; 2; 3]; [4; 5; 6]]%Z.

(** The 2 by 2 identity as both forms of a metric. *)
Definition eye2 : @NDimArray ZExpr :=
  matrix (SE := ZExpr) 2 [[1; 0]; [0; 1]]%Z.
Definition euclid : @MetricTensor ZExpr :=
  {| covariant_form := eye2; contravariant_form := eye2 |}.

(** [[a * x + f(x)]] over the coordinate [x], constructed with [variables]
    and [functions] left to the constructor. *)
Definition axf_arr : @NDimArray SymExpr :=
  vector (SE := SymExpr)
         [SAdd (SMul (SSym "a") (SSym "x")) (SApp "f" (SSym "x"))].

End MoreExamples.

(** * Properties *)

(** ** Configuration validator *)

Lemma config_loop_only_markers (s : string) :
  config_loop s = true <-> only_markers s.
Proof.
  induction s as [|ch rest IH]; simpl.
  - tauto.
  - destruct (Ascii.eqb_spec ch "l") as [El|Nl];
      destruct (Ascii.eqb_spec ch "u") as [Eu|Nu]; simpl.
    + rewrite IH. tauto.
    + rewrite IH. tauto.
    + rewrite IH. tauto.
    + split; [discriminate|]. intros [[E|E] _]; contradiction.
Qed.

(** C2, as stated, fails on the empty string: the validator accepts it,
    although it is not a non-empty string of markers. *)
Lemma config_checker_accepts_empty :
  ~ (_config_checker (PyStr "") = true <-> spec_valid_configuration (PyStr "")).
Proof.
  intros [H _]. destruct (H eq_refl) as (s & E & Hne & _).
  injection E as <-. apply Hne. reflexivity.
Qed.

(** C2 (amended): the validator returns True exactly on the strings whose
    characters are all ['u'] or ['l'], the empty string included; every
    other input is rejected. *)
Theorem config_checker_spec (c : pyobj) :
  _config_checker c = true <-> exists s, c = PyStr s /\ only_markers s.
Proof.
  destruct c as [s| |z|l]; simpl.
  - rewrite config_loop_only_markers. split.
    + intros H. exists s. auto.
    + intros (s' & E & H). injection E as <-. exact H.
  - split; [discriminate|]. intros (s & E & _). discriminate.
  - split; [discriminate|]. intros (s & E & _). discriminate.
  - split; [discriminate|]. intros (s & E & _). discriminate.
Qed.

(** ** Config diff engine *)

Lemma difference_loop_map (l : list (ascii * ascii)) (acc : list Z) :
  fold_left
    (fun difflist '(n_ch, o_ch) =>
       if Ascii.eqb n_ch o_ch then (difflist ++ [0%Z])%list
       else if Ascii.eqb n_ch "u" then (difflist ++ [1%Z])%list
       else (difflist ++ [(-1)%Z])%list) l acc
  = acc ++ map action_of l.
Proof.
  revert acc. induction l as [|[n o] l IH]; intros acc; simpl.
  - now rewrite app_nil_r.
  - destruct (Ascii.eqb n o); [|destruct (Ascii.eqb n "u")];
      rewrite IH, <- app_assoc; reflexivity.
Qed.

Lemma difference_list_map (newconfig oldconfig : string) :
  _difference_list newconfig oldconfig = map action_of (zip newconfig oldconfig).
Proof. unfold _difference_list. now rewrite difference_loop_map. Qed.

Lemma zip_length (a b : string) :
  String.length a = String.length b -> length (zip a b) = String.length a.
Proof.
  revert b. induction a as [|x a IH]; intros [|y b]; simpl; try discriminate; auto.
Qed.

Lemma zip_nth_error (a b : string) (i : nat) (x y : ascii) :
  String.get i a = Some x -> String.get i b = Some y ->
  nth_error (zip a b) i = Some (x, y).
Proof.
  revert b i. induction a as [|x' a IH]; intros [|y' b] [|i]; simpl;
    intros H1 H2; try discriminate.
  - congruence.
  - now apply IH.
Qed.

Lemma difference_list_length (newconfig oldconfig : string) :
  String.length newconfig = String.length oldconfig ->
  length (_difference_list newconfig oldconfig) = String.length newconfig.
Proof.
  intros H. rewrite difference_list_map, length_map. now apply zip_length.
Qed.

(** C8: on configurations of equal length the diff engine yields one action
    per axis position: NoOp where the characters agree, Raise where the
    position changes to ['u'], Lower where it changes to ['l']; and the three
    listed instances evaluate as stated. *)
Theorem diff_engine_actions (old new : string) :
  String.length old = String.length new ->
  length (Diff old new) = String.length old /\
  (forall i o n,
      String.get i old = Some o -> String.get i new = Some n ->
      (n = o -> nth_error (Diff old new) i = Some NoOp) /\
      (n <> o -> n = "u"%char -> nth_error (Diff old new) i = Some Raise) /\
      (n <> o -> n = "l"%char -> nth_error (Diff old new) i = Some Lower)) /\
  Diff "uu" "ul" = [NoOp; Lower] /\
  Diff "ll" "uu" = [Raise; Raise] /\
  Diff "ul" "ul" = [NoOp; NoOp].
Proof.
  intros Hlen. unfold Diff. split; [|split].
  - rewrite difference_list_length; auto.
  - intros i o n Ho Hn. rewrite difference_list_map.
    rewrite (nth_error_map action_of i (zip new old)).
    rewrite (zip_nth_error new old i Hn Ho). simpl.
    destruct (Ascii.eqb_spec n o) as [E|N].
    + repeat split; intros; congruence.
    + repeat split; intros; try congruence; subst n.
      * reflexivity.
      * destruct (Ascii.eqb_spec "l" "u"); [discriminate|reflexivity].
  - repeat split.
Qed.

Lemma diff_engine_actions_witness :
  length (Diff "lul" "uul") = 3 /\ nth_error (Diff "lul" "uul") 0 = Some Raise.
Proof.
  destruct (@diff_engine_actions "lul" "uul" eq_refl) as (Hl & Hact & _).
  split; [exact Hl|].
  destruct (Hact 0 "l"%char "u"%char eq_refl eq_refl) as (_ & Hr & _).
  apply Hr; [discriminate|reflexivity].
Defined.

(** ** Tensor: construction, substitution, rejected configurations *)

Section TensorProperties.
Context {SE : SympyExpr}.

Lemma Tensor_init_ok (a : py_arr_arg) (c : pyobj) (t : Tensor) :
  Tensor_init a c = Ok t ->
  _config_checker c = true /\ c = PyStr (config t) /\
  order t = String.length (config t) /\
  (a = ArgNested (arr t) \/ a = ArgArray (arr t)).
Proof.
  unfold Tensor_init. intros H.
  destruct (_config_checker c) eqn:Hc.
  - destruct c as [s| | |]; try discriminate Hc.
    destruct a as [a|a| | |]; simpl in H; try discriminate H;
      injection H as <-; simpl; auto.
  - destruct a; simpl in H; discriminate H.
Qed.

(** C3, as stated, fails on the empty configuration: the constructor
    accepts it and returns a Tensor of order 0. *)
Lemma Tensor_init_accepts_empty_config :
  ~ (exists e, Tensor_init (SE := ZExpr) (ArgNested Examples.v123) (PyStr "")
               = Err e).
Proof. intros [e H]. discriminate H. Qed.

(** C3 (amended): the configuration ["lx"] is rejected with the TypeError
    of an invalid configuration and the array argument [None] with the
    TypeError of an invalid array type, no Tensor being produced in either
    case; the empty configuration is accepted and gives a Tensor of order 0. *)
Theorem Tensor_init_errors :
  (forall a, Tensor_init (ArgNested a) (PyStr "lx") = Err (TypeError
     "config is either not of type 'str' or does contain characters other than 'l' or 'u'")) /\
  (forall a, Tensor_init (ArgArray a) (PyStr "lx") = Err (TypeError
     "config is either not of type 'str' or does contain characters other than 'l' or 'u'")) /\
  (forall c, Tensor_init ArgNone c = Err (TypeError
     "Only multi-dimensional list or Sympy Array is expected")) /\
  (forall a, Tensor_init (ArgArray a) (PyStr "")
             = Ok {| arr := a; _config := ""; _order := 0 |}) /\
  (forall a, Tensor_init (ArgNested a) (PyStr "")
             = Ok {| arr := a; _config := ""; _order := 0 |}).
Proof. repeat split. Qed.

(** What [subs] returns on every tensor: the substituted array, under the
    default configuration. *)
Lemma subs_result (t : Tensor) (args : SubsArgs) :
  subs t args = Ok {| arr := array_subs args (tensor t);
                      _config := "ll"; _order := 2 |}.
Proof. reflexivity. Qed.

(** The guard on a string. *)
Lemma change_config_str (T : Tensor) (metric : MetricTensor) (s : string) :
  _change_config T metric (PyStr s)
  = if negb ((String.length s =? String.length (config T))
             && _config_checker (PyStr s))
    then Err (ValueError "")
    else chain_config_change T metric s.
Proof. reflexivity. Qed.

Lemma chain_loop_noop (metric : MetricTensor) (acts : list (nat * Z))
  (t : NDimArray) :
  Forall (fun p => snd p = 0%Z) acts -> chain_loop metric acts t = Ok t.
Proof.
  induction 1 as [|[i a] acts Ha _ IH]; simpl; auto.
  simpl in Ha. subst a. unfold chain_step. simpl. exact IH.
Qed.

Lemma zip_same_noop (c : string) :
  map action_of (zip c c) = repeat NoOp (String.length c).
Proof.
  induction c as [|ch c IH]; simpl; auto.
  rewrite Ascii.eqb_refl, IH. reflexivity.
Qed.

Lemma enumerate_snd {A : Type} (P : A -> Prop) (l : list A) :
  Forall P l -> Forall (fun p : nat * A => P (snd p)) (enumerate l).
Proof.
  intros H. unfold enumerate. generalize 0.
  induction H as [|x l Hx _ IH]; intros k; simpl; constructor; auto.
Qed.

(** C7: converting a tensor to its own configuration goes through an action
    list made of NoOp only and returns the tensor's own array, whatever the
    metric; the transform is a function of the tensor and returns an array,
    so the tensor itself is left as it was. *)
Theorem change_config_identity (a : py_arr_arg) (c : pyobj) (T : Tensor)
  (metric : MetricTensor) :
  Tensor_init a c = Ok T ->
  Diff (config T) (config T) = repeat NoOp (order T) /\
  _change_config T metric (PyStr (config T)) = Ok (arr T).
Proof.
  intros H. destruct (Tensor_init_ok _ _ H) as (Hc & -> & Ho & _).
  assert (HD : Diff (config T) (config T) = repeat NoOp (order T)).
  { unfold Diff. rewrite difference_list_map, zip_same_noop, Ho. reflexivity. }
  split; [exact HD|].
  rewrite change_config_str, Nat.eqb_refl, Hc. simpl.
  unfold chain_config_change. fold (Diff (config T) (config T)). rewrite HD.
  apply chain_loop_noop.
  apply enumerate_snd with (P := fun z => z = 0%Z). apply Forall_forall.
  intros x Hx. now apply repeat_spec in Hx.
Qed.

(** C9 (amended): on a constructed tensor, a new configuration that has a
    length (a string, a sequence) and whose length is not the tensor's
    order, or which the validator rejects, makes [_change_config] raise its
    bare ValueError, whatever the array and the metric are; a new
    configuration without a length ([None], a number) makes the guard's
    [len] raise its TypeError.  In both cases no product or contraction has
    been evaluated, and the tensor is untouched. *)
Theorem change_config_rejects (a : py_arr_arg) (c : pyobj) (T : Tensor)
  (metric : MetricTensor) (newconfig : pyobj) :
  Tensor_init a c = Ok T ->
  (forall n, py_len newconfig = Ok n ->
     n <> order T \/ _config_checker newconfig = false ->
     _change_config T metric newconfig = Err (ValueError "")) /\
  (forall e, py_len newconfig = Err e ->
     _change_config T metric newconfig = Err e /\
     exists msg, e = TypeError msg).
Proof.
  intros H. destruct (@Tensor_init_ok a c T H) as (_ & _ & Ho & _).
  unfold _change_config. split.
  - intros n Hn Hbad. rewrite Hn. cbn [bind]. rewrite <- Ho.
    destruct Hbad as [Hlen|Hchk].
    + apply Nat.eqb_neq in Hlen. rewrite Hlen. reflexivity.
    + rewrite Hchk, andb_false_r. reflexivity.
  - intros e He. rewrite He. cbn [bind]. split; [reflexivity|].
    destruct newconfig; simpl in He; try discriminate He;
      injection He as <-; eauto.
Qed.

End TensorProperties.

(** C9, as stated, fails on a configuration without a length: the
    validator rejects [None], yet the guard raises the TypeError of [len]
    and not its ValueError. *)
Lemma change_config_none_is_type_error :
  ~ (_config_checker PyNone = false ->
     _change_config (SE := ZExpr)
       {| arr := Examples.t_ll_arr; _config := "ll"; _order := 2 |}
       Examples.g PyNone = Err (ValueError "")).
Proof. intros H. specialize (H eq_refl). discriminate H. Qed.

(** ** Lists: insertion, removal, positions *)

Section ListFacts.
Variable A : Type.

Lemma pop_at_firstn_skipn (i : nat) (l : list A) :
  pop_at i l = firstn i l ++ skipn (S i) l.
Proof.
  revert i. induction l as [|x l IH]; intros [|i]; simpl; auto.
  now rewrite IH.
Qed.

Lemma insert_at_firstn_skipn (i : nat) (x : A) (l : list A) :
  i <= length l -> insert_at i x l = firstn i l ++ x :: skipn i l.
Proof.
  revert i. induction l as [|y l IH]; intros [|i] H; simpl in *; auto; try lia.
  rewrite IH by lia. reflexivity.
Qed.

Lemma length_pop_at (i : nat) (l : list A) :
  i < length l -> length (pop_at i l) = length l - 1.
Proof.
  revert i. induction l as [|x l IH]; intros [|i] H; simpl in *; try lia.
  rewrite IH by lia. lia.
Qed.

Lemma length_insert_at (i : nat) (x : A) (l : list A) :
  length (insert_at i x l) = S (length l).
Proof.
  revert i. induction l as [|y l IH]; intros [|i]; simpl; auto.
Qed.

Lemma insert_at_end (x : A) (l : list A) :
  insert_at (length l) x l = l ++ [x].
Proof. induction l as [|y l IH]; simpl; congruence. Qed.

Lemma insert_pop_nth (i : nat) (l : list A) (d : A) :
  i < length l -> insert_at i (nth i l d) (pop_at i l) = l.
Proof.
  revert i. induction l as [|x l IH]; intros [|i] H; simpl in *; try lia; auto.
  destruct l as [|y l]; simpl in *; [lia|].
  f_equal. apply (IH i). lia.
Qed.

Lemma pop_insert (i : nat) (x : A) (l : list A) :
  i <= length l -> pop_at i (insert_at i x l) = l.
Proof.
  revert i. induction l as [|y l IH]; intros [|i] H; simpl in *; auto; try lia.
  rewrite IH by lia. reflexivity.
Qed.

Lemma nth_insert_at_same (i : nat) (x d : A) (l : list A) :
  i <= length l -> nth i (insert_at i x l) d = x.
Proof.
  revert i. induction l as [|y l IH]; intros [|i] H; simpl in *; auto; try lia.
  apply IH. lia.
Qed.

Lemma map_nth_seq (l : list A) (d : A) (a len : nat) :
  a + len <= length l ->
  map (fun k => nth k l d) (seq a len) = firstn len (skipn a l).
Proof.
  intros H. apply nth_ext with (d := d) (d' := d).
  - rewrite length_map, length_seq, length_firstn, length_skipn. lia.
  - intros j Hj. rewrite length_map, length_seq in Hj.
    rewrite nth_firstn.
    assert (Hlt : (j <? len) = true) by now apply Nat.ltb_lt.
    rewrite Hlt, nth_skipn.
    rewrite (nth_indep _ d (nth (a + len) l d))
      by now rewrite length_map, length_seq.
    rewrite (map_nth (fun k => nth k l d)).
    rewrite seq_nth by lia. reflexivity.
Qed.

Lemma map_nth_seq_S (x : A) (l : list A) (d : A) (a len : nat) :
  map (fun k => nth k (x :: l) d) (seq (S a) len)
  = map (fun k => nth k l d) (seq a len).
Proof. rewrite <- seq_shift, map_map. reflexivity. Qed.

End ListFacts.

Lemma pop_at_seq (i a n : nat) :
  i < n -> pop_at i (seq a n) = seq a i ++ seq (a + S i) (n - S i).
Proof.
  revert a n. induction i as [|i IH]; intros a [|n] H; simpl; try lia.
  - replace (a + 1) with (S a) by lia. now rewrite Nat.sub_0_r.
  - rewrite IH by lia. replace (S a + S i) with (a + S (S i)) by lia.
    reflexivity.
Qed.

Lemma seq_split_at (i n : nat) :
  i < n -> seq 0 n = 0 :: (seq 1 i ++ seq (S i) (n - S i)).
Proof.
  intros H. destruct n as [|n]; [lia|]. simpl. f_equal.
  replace n with (i + (n - i)) at 1 by lia. apply seq_app.
Qed.

Lemma index_of_app_in (x : nat) (l1 l2 : list nat) :
  In x l1 -> index_of x (l1 ++ l2) = index_of x l1.
Proof.
  induction l1 as [|y l1 IH]; simpl; [tauto|].
  intros [E|H].
  - subst. now rewrite Nat.eqb_refl.
  - destruct (x =? y); auto.
Qed.

Lemma index_of_app_notin (x : nat) (l1 l2 : list nat) :
  ~ In x l1 -> index_of x (l1 ++ l2) = length l1 + index_of x l2.
Proof.
  induction l1 as [|y l1 IH]; simpl; auto.
  intros H. destruct (Nat.eqb_spec x y) as [E|N].
  - subst. tauto.
  - rewrite IH by tauto. reflexivity.
Qed.

Lemma index_of_seq (x a len : nat) :
  a <= x < a + len -> index_of x (seq a len) = x - a.
Proof.
  revert a. induction len as [|len IH]; intros a H; simpl; [lia|].
  destruct (Nat.eqb_spec x a) as [E|N]; [lia|].
  rewrite IH by lia. lia.
Qed.

(** ** [sorted] and the order computed by [np.moveaxis] *)

Lemma sorted_insert_front (x : nat * nat) (l : list (nat * nat)) :
  Forall (fun y => fst x < fst y) l -> sorted_insert x l = x :: l.
Proof.
  destruct 1 as [|y l Hy _]; simpl; auto.
  unfold pair_leb. apply Nat.ltb_lt in Hy. now rewrite Hy.
Qed.

Lemma sorted_insert_middle (x : nat * nat) (l1 l2 : list (nat * nat)) :
  Forall (fun y => fst y < fst x) l1 ->
  Forall (fun y => fst x < fst y) l2 ->
  sorted_insert x (l1 ++ l2) = l1 ++ x :: l2.
Proof.
  induction 1 as [|y l1 Hy _ IH]; intros H2; simpl.
  - now apply sorted_insert_front.
  - unfold pair_leb.
    assert (E1 : (fst x <? fst y) = false) by (apply Nat.ltb_ge; lia).
    assert (E2 : (fst x =? fst y) = false) by (apply Nat.eqb_neq; lia).
    rewrite E1, E2. simpl. now rewrite IH.
Qed.

Lemma sorted_increasing (ds ss : list nat) :
  StronglySorted lt ds -> sorted (combine ds ss) = combine ds ss.
Proof.
  intros H. revert ss. induction H as [|d ds _ IH Hd]; intros [|s ss]; simpl; auto.
  rewrite IH. apply sorted_insert_front. apply Forall_forall.
  intros [d' s'] Hin. simpl. apply in_combine_l in Hin.
  rewrite Forall_forall in Hd. now apply Hd.
Qed.

Lemma StronglySorted_seq (a n : nat) : StronglySorted lt (seq a n).
Proof.
  revert a. induction n as [|n IH]; intros a; simpl; constructor; auto.
  apply Forall_forall. intros x Hx. apply in_seq in Hx. lia.
Qed.

Lemma StronglySorted_app_lt (l1 l2 : list nat) :
  StronglySorted lt l1 -> StronglySorted lt l2 ->
  (forall x y, In x l1 -> In y l2 -> x < y) ->
  StronglySorted lt (l1 ++ l2).
Proof.
  induction 1 as [|x l1 _ IH Hx]; intros H2 Hlt; simpl; auto.
  constructor.
  - apply IH; auto. intros; apply Hlt; simpl; auto.
  - apply Forall_app. split; auto.
    apply Forall_forall. intros y Hy. apply Hlt; simpl; auto.
Qed.

Lemma sorted_no_repeat (l : list nat) :
  StronglySorted lt l -> no_repeat l = true.
Proof.
  induction 1 as [|x l _ IH Hx]; simpl; auto.
  rewrite IH, andb_true_r. apply negb_true_iff.
  destruct (existsb _ _) eqn:E; [|reflexivity].
  apply existsb_exists in E. destruct E as (y & Hy & Ey).
  apply Nat.eqb_eq in Ey. subst y.
  rewrite Forall_forall in Hx. apply Hx in Hy. lia.
Qed.

Lemma combine_app_same {A B : Type} (l1 l2 : list A) (l1' l2' : list B) :
  length l1 = length l1' ->
  combine (l1 ++ l2) (l1' ++ l2') = combine l1 l1' ++ combine l2 l2'.
Proof.
  revert l1'. induction l1 as [|x l1 IH]; intros [|y l1'] H; simpl in *;
    try discriminate; auto.
  f_equal. apply IH. lia.
Qed.

Lemma map_fst_combine_same {A B : Type} (l : list A) (l' : list B) :
  length l = length l' -> map fst (combine l l') = l.
Proof.
  revert l'. induction l as [|x l IH]; intros [|y l'] H; simpl in *;
    try discriminate; auto.
  f_equal. apply IH. lia.
Qed.

Lemma map_snd_combine_same {A B : Type} (l : list A) (l' : list B) :
  length l = length l' -> map snd (combine l l') = l'.
Proof.
  revert l'. induction l as [|x l IH]; intros [|y l'] H; simpl in *;
    try discriminate; auto.
  f_equal. apply IH. lia.
Qed.

Lemma fold_insert_in_order (ps : list (nat * nat)) (acc : list nat) :
  map fst ps = seq (length acc) (length ps) ->
  fold_left (fun order '(dest, src) => insert_at dest src order) ps acc
  = acc ++ map snd ps.
Proof.
  revert acc. induction ps as [|[d s] ps IH]; intros acc H; simpl in *.
  - now rewrite app_nil_r.
  - injection H as Hd Hrest. subst d.
    rewrite insert_at_end, IH.
    + rewrite <- app_assoc. reflexivity.
    + rewrite length_app. simpl.
      replace (length acc + 1) with (S (length acc)) by lia. exact Hrest.
Qed.

Lemma filter_none {A : Type} (f : A -> bool) (l : list A) :
  (forall x, In x l -> f x = false) -> filter f l = [].
Proof.
  induction l as [|x l IH]; intros H; simpl; auto.
  rewrite (H x) by (simpl; auto). apply IH. intros; apply H; simpl; auto.
Qed.

(** The destination list built by the loop body: [dest.pop(i)] then
    [dest.insert(0, i)] on [[0, ..., n-1]]. *)
Lemma dest_list (i n : nat) :
  i < n ->
  insert_at 0 i (pop_at i (seq 0 n)) = i :: (seq 0 i ++ seq (S i) (n - S i)).
Proof. intros H. simpl. now rewrite pop_at_seq. Qed.

(** With that destination, numpy transposes by the order
    [[1, ..., i, 0, i+1, ..., n-1]]. *)
Lemma moveaxis_order (i n : nat) :
  i < n ->
  fold_left (fun order '(dest, src) => insert_at dest src order)
            (sorted (combine (insert_at 0 i (pop_at i (seq 0 n))) (seq 0 n)))
            []
  = seq 1 i ++ 0 :: seq (S i) (n - S i).
Proof.
  intros H. rewrite dest_list by auto.
  rewrite (seq_split_at H). simpl combine. simpl sorted.
  rewrite sorted_increasing.
  2:{ apply StronglySorted_app_lt; try apply StronglySorted_seq.
      intros x y Hx Hy. apply in_seq in Hx, Hy. lia. }
  rewrite combine_app_same by now rewrite !length_seq.
  rewrite sorted_insert_middle.
  - rewrite fold_insert_in_order.
    + simpl. rewrite map_app. simpl.
      rewrite !map_snd_combine_same by now rewrite !length_seq. reflexivity.
    + rewrite map_app. simpl.
      rewrite !map_fst_combine_same by now rewrite !length_seq.
      rewrite length_app. simpl. rewrite !length_combine, !length_seq.
      rewrite !Nat.min_id.
      replace (i + S (n - S i)) with n by lia.
      rewrite (seq_split_at H) at 1.
      change (0 :: seq 1 i ++ seq (S i) (n - S i)) with (seq 0 (S i) ++ seq (S i) (n - S i)).
      rewrite seq_S. rewrite <- app_assoc. reflexivity.
  - apply Forall_forall. intros [d s] Hin. apply in_combine_l in Hin.
    apply in_seq in Hin. simpl. lia.
  - apply Forall_forall. intros [d s] Hin. apply in_combine_l in Hin.
    apply in_seq in Hin. simpl. lia.
Qed.

(** ** The array primitives at the arguments the transform passes *)

Section ArrayFacts.
Context {SE : SympyExpr}.

Lemma transpose_index (i n : nat) (idx : list nat) :
  length idx = n -> i < n ->
  map (fun ax => nth (index_of ax (seq 1 i ++ 0 :: seq (S i) (n - S i))) idx 0)
      (seq 0 n)
  = nth i idx 0 :: pop_at i idx.
Proof.
  intros Hlen Hi. rewrite (seq_split_at Hi). simpl map.
  assert (H0 : ~ In 0 (seq 1 i)) by (rewrite in_seq; lia).
  f_equal.
  - rewrite index_of_app_notin by exact H0. simpl.
    rewrite length_seq, Nat.add_0_r. reflexivity.
  - rewrite map_app, pop_at_firstn_skipn. f_equal.
    + rewrite (map_ext_in _ (fun ax => nth ax (0 :: idx) 0)).
      * rewrite map_nth_seq_S, map_nth_seq by lia. reflexivity.
      * intros ax Hax. rewrite index_of_app_in by exact Hax.
        apply in_seq in Hax. rewrite index_of_seq by lia.
        destruct ax as [|ax]; [lia|]. simpl. now rewrite Nat.sub_0_r.
    + rewrite (map_ext_in _ (fun ax => nth ax idx 0)).
      * rewrite map_nth_seq by lia.
        apply firstn_all2. rewrite length_skipn. lia.
      * intros ax Hax. apply in_seq in Hax.
        rewrite index_of_app_notin by (rewrite in_seq; lia).
        rewrite length_seq. simpl.
        destruct ax as [|ax]; [lia|]. simpl.
        rewrite index_of_seq by lia. f_equal. lia.
Qed.

Lemma transpose_shape (i n c0 : nat) (rest : list nat) :
  length rest + 1 = n -> i < n ->
  map (fun ax => nth ax (c0 :: rest) 0) (seq 1 i ++ 0 :: seq (S i) (n - S i))
  = insert_at i c0 rest.
Proof.
  intros Hlen Hi. rewrite insert_at_firstn_skipn by lia.
  rewrite map_app, map_cons, !map_nth_seq_S.
  rewrite !map_nth_seq by lia. simpl. f_equal. f_equal.
  apply firstn_all2. rewrite length_skipn. lia.
Qed.

Lemma forallb_seq_lt (n : nat) (l : list nat) :
  (forall x, In x l -> x < n) -> forallb (fun ax => ax <? n) l = true.
Proof.
  intros H. apply forallb_forall. intros x Hx. apply Nat.ltb_lt. auto.
Qed.

(** [np.moveaxis] at the source and destination of the loop body is the
    re-insertion of axis 0 at position [i]. *)
Lemma moveaxis_code (a : NDimArray) (i n : nat) :
  rank a = n -> i < n ->
  moveaxis a (seq 0 n) (insert_at 0 i (pop_at i (seq 0 n)))
  = Ok (transpose a (seq 1 i ++ 0 :: seq (S i) (n - S i))).
Proof.
  intros Hr Hi. unfold moveaxis. rewrite Hr.
  rewrite forallb_seq_lt by (intros x Hx; apply in_seq in Hx; lia).
  rewrite forallb_seq_lt.
  2:{ rewrite dest_list by auto. intros x [E|Hx]; [lia|].
      apply in_app_or in Hx. destruct Hx as [Hx|Hx]; apply in_seq in Hx; lia. }
  cbn [andb negb].
  rewrite (sorted_no_repeat (StronglySorted_seq 0 n)).
  assert (Hd : no_repeat (insert_at 0 i (pop_at i (seq 0 n))) = true).
  { rewrite dest_list by auto. cbn [no_repeat].
    rewrite sorted_no_repeat.
    - rewrite andb_true_r. apply negb_true_iff.
      destruct (existsb _ _) eqn:E; [|reflexivity].
      apply existsb_exists in E. destruct E as (x & Hx & Ex).
      apply Nat.eqb_eq in Ex. subst x.
      apply in_app_or in Hx. destruct Hx as [Hx|Hx]; apply in_seq in Hx; lia.
    - apply StronglySorted_app_lt; try apply StronglySorted_seq.
      intros x y Hx Hy. apply in_seq in Hx, Hy. lia. }
  rewrite Hd. cbn [andb negb].
  assert (Hl : (length (seq 0 n)
                =? length (insert_at 0 i (pop_at i (seq 0 n)))) = true).
  { apply Nat.eqb_eq.
    rewrite length_insert_at, length_pop_at by (rewrite length_seq; lia).
    rewrite !length_seq. lia. }
  rewrite Hl. cbn [negb].
  rewrite filter_none.
  - rewrite moveaxis_order by auto. reflexivity.
  - intros x Hx. apply negb_false_iff, existsb_exists.
    exists x. split; auto. apply Nat.eqb_refl.
Qed.

Lemma moveaxis_code_spec (a : NDimArray) (i n : nat) :
  rank a = n -> i < n ->
  exists r,
    moveaxis a (seq 0 n) (insert_at 0 i (pop_at i (seq 0 n))) = Ok r /\
    shape r = shape (move_axis0_to i a) /\
    forall idx, length idx = n -> item r idx = item (move_axis0_to i a) idx.
Proof.
  intros Hr Hi. eexists. split; [apply moveaxis_code; eauto|].
  unfold rank in Hr. destruct (shape a) as [|c0 rest] eqn:Hs; simpl in Hr; [lia|].
  split.
  - simpl. rewrite Hs. simpl. apply transpose_shape; lia.
  - intros idx Hidx. simpl. unfold rank. rewrite Hs. simpl length.
    rewrite Hr. rewrite transpose_index by assumption. reflexivity.
Qed.

Lemma remaining_from_past (k p q : nat) (l : list nat) :
  p < k -> q < k -> remaining_from k p q l = l.
Proof.
  revert k. induction l as [|x l IH]; intros k Hp Hq; simpl; auto.
  assert (E1 : (k =? p) = false) by (apply Nat.eqb_neq; lia).
  assert (E2 : (k =? q) = false) by (apply Nat.eqb_neq; lia).
  rewrite E1, E2. simpl. rewrite IH by lia. reflexivity.
Qed.

Lemma remaining_from_code (c i : nat) (s : list nat) :
  remaining_from (2 + c) 1 (2 + c + i) s = pop_at i s.
Proof.
  revert c i. induction s as [|x s IH]; intros c i; simpl.
  - destruct i; reflexivity.
  - destruct i as [|i].
    + rewrite Nat.add_0_r, Nat.eqb_refl. simpl.
      apply remaining_from_past; lia.
    + assert (E : (c =? c + S i) = false) by (apply Nat.eqb_neq; lia).
      rewrite E. cbn [pop_at]. f_equal.
      replace (S (S (c + S i))) with (2 + S c + i) by lia.
      apply (IH (S c) i).
Qed.

Lemma contracted_index_past (n pos p q js : nat) (idx : list nat) :
  p < pos -> q < pos -> length idx = n ->
  contracted_index n pos p q js idx = idx.
Proof.
  revert pos idx. induction n as [|n IH]; intros pos idx Hp Hq Hl; simpl.
  - destruct idx; simpl in Hl; [reflexivity|lia].
  - assert (E1 : (pos =? p) = false) by (apply Nat.eqb_neq; lia).
    assert (E2 : (pos =? q) = false) by (apply Nat.eqb_neq; lia).
    rewrite E1, E2. simpl. destruct idx as [|j idx]; simpl in Hl; [lia|].
    rewrite IH by lia. reflexivity.
Qed.

Lemma contracted_index_code (n c i js : nat) (rest : list nat) :
  length rest + 1 = n -> i <= length rest ->
  contracted_index n (2 + c) 1 (2 + c + i) js rest = insert_at i js rest.
Proof.
  revert c i rest. induction n as [|n IH]; intros c i rest Hl Hi; [lia|].
  simpl. destruct i as [|i].
  - rewrite Nat.add_0_r, Nat.eqb_refl. simpl.
    rewrite contracted_index_past by lia. reflexivity.
  - assert (E : (c =? c + S i) = false) by (apply Nat.eqb_neq; lia).
    rewrite E. destruct rest as [|j rest]; simpl in Hl, Hi; [lia|].
    cbn [insert_at]. f_equal. replace (S (S (c + S i))) with (2 + S c + i) by lia.
    apply (IH (S c) i rest); lia.
Qed.

Lemma isum_0 (f : nat -> Expr) : isum 0 f = S_Zero.
Proof. reflexivity. Qed.

Lemma isum_S (d : nat) (f : nat -> Expr) :
  isum (S d) f = expr_add (isum d f) (f d).
Proof. unfold isum. rewrite seq_S, fold_left_app. reflexivity. Qed.

Lemma isum_ext (d : nat) (f g : nat -> Expr) :
  (forall k, k < d -> f k = g k) -> isum d f = isum d g.
Proof.
  induction d as [|d IH]; intros H; [reflexivity|].
  rewrite !isum_S, IH, H by auto. reflexivity.
Qed.

(** [tensorcontraction(tensorproduct(m, t), (1, 2 + i))] for a rank-2 [m]
    whose second extent is the extent of axis [i] of [t]. *)
Lemma contraction_code (m t : NDimArray) (m0 d i : nat) :
  shape m = [m0; d] -> nth_error (shape t) i = Some d ->
  exists c,
    tensorcontraction (tensorproduct m t) 1 (2 + i) = Ok c /\
    shape c = m0 :: pop_at i (shape t) /\
    forall a rest, length rest + 1 = rank t ->
      item c (a :: rest)
      = isum d (fun js => expr_mul (item m [a; js])
                                   (item t (insert_at i js rest))).
Proof.
  intros Hm Hi.
  assert (Hlt : i < length (shape t)).
  { apply nth_error_Some. congruence. }
  unfold tensorcontraction, tensorproduct. simpl shape. rewrite Hm.
  simpl. rewrite Hi, Nat.eqb_refl. simpl.
  eexists. split; [reflexivity|]. split.
  - simpl. f_equal. apply (remaining_from_code 0 i).
  - intros a rest Hrest. simpl. unfold rank. simpl. rewrite Hm. simpl.
    apply isum_ext. intros js _. f_equal. f_equal.
    unfold rank in Hrest.
    apply contracted_index_code with (c := 0); lia.
Qed.

End ArrayFacts.

(** ** One step of the transform *)

Section StepFacts.
Context {SE : SympyExpr}.

Lemma array_eq_refl (a : NDimArray) : array_eq a a.
Proof. split; auto. Qed.

Lemma array_eq_sym (a b : NDimArray) : array_eq a b -> array_eq b a.
Proof.
  intros [Hs Hi]. split; [congruence|].
  intros idx Hv. symmetry. apply Hi. now rewrite Hs.
Qed.

Lemma array_eq_trans (a b c : NDimArray) :
  array_eq a b -> array_eq b c -> array_eq a c.
Proof.
  intros [Hs1 Hi1] [Hs2 Hi2]. split; [congruence|].
  intros idx Hv. rewrite Hi1 by auto. apply Hi2. now rewrite <- Hs1.
Qed.

Lemma valid_index_length (s idx : list nat) :
  valid_index s idx -> length idx = length s.
Proof. induction 1; simpl; auto. Qed.

Lemma valid_index_nth (s idx : list nat) (i : nat) :
  valid_index s idx -> i < length s -> nth i idx 0 < nth i s 0.
Proof.
  intros H. revert i. induction H as [|x y idx s Hxy _ IH]; intros [|i] Hi;
    simpl in *; try lia. apply IH. lia.
Qed.

Lemma valid_index_update (s idx : list nat) (i js : nat) :
  valid_index s idx -> i < length s -> js < nth i s 0 ->
  valid_index s (insert_at i js (pop_at i idx)).
Proof.
  intros H. revert i. induction H as [|x y idx s Hxy Hrest IH]; intros [|i] Hi Hjs;
    simpl in *; try lia.
  - constructor; auto.
  - destruct Hrest as [|x' y' idx' s' Hxy' Hrest']; simpl in *; [lia|].
    constructor; auto. apply (IH i); auto. lia.
Qed.

Lemma uniform_nth_error (d : nat) (s : list nat) (i : nat) :
  Forall (fun x => x = d) s -> i < length s -> nth_error s i = Some d.
Proof.
  intros H. revert i. induction H as [|x s Hx _ IH]; intros [|i] Hi;
    simpl in *; try lia.
  - now subst.
  - apply IH. lia.
Qed.

Lemma insert_pop_same (d : nat) (s : list nat) (i : nat) :
  nth_error s i = Some d -> insert_at i d (pop_at i s) = s.
Proof.
  intros H. assert (Hi : i < length s) by (apply nth_error_Some; congruence).
  rewrite <- (nth_error_nth s i 0 H) at 1. now apply insert_pop_nth.
Qed.

Lemma met_dict_action (metric : MetricTensor) (action : Z) :
  is_action action -> action <> 0%Z ->
  met_dict metric action = Ok (spec_metric_form metric action).
Proof.
  intros [E|[E|E]] Hne; subst; [contradiction| |]; reflexivity.
Qed.

Lemma square_metric_form (d : nat) (metric : MetricTensor) (action : Z) :
  square_metric d metric -> shape (spec_metric_form metric action) = [d; d].
Proof.
  intros [Hc Hu]. unfold spec_metric_form. now destruct (action =? Raise)%Z.
Qed.

(** The loop body on an axis the action list acts on. *)
Lemma chain_step_act (metric : MetricTensor) (i : nat) (action : Z)
  (t : NDimArray) (m0 d : nat) :
  is_action action -> action <> 0%Z ->
  shape (spec_metric_form metric action) = [m0; d] ->
  nth_error (shape t) i = Some d ->
  exists r,
    chain_step metric i action t = Ok r /\
    shape r = insert_at i m0 (pop_at i (shape t)) /\
    forall idx, length idx = rank t ->
      item r idx = raised_entry (spec_metric_form metric action) t d i idx.
Proof.
  intros Ha Hne Hm Hi.
  assert (Hlt : i < length (shape t)) by (apply nth_error_Some; congruence).
  unfold chain_step. apply Z.eqb_neq in Hne. rewrite Hne.
  apply Z.eqb_neq in Hne. rewrite (met_dict_action metric Ha Hne).
  destruct (contraction_code _ t i Hm Hi) as (c & Hc & Hsc & Hic).
  cbn [bind]. rewrite Hc. cbn [bind].
  assert (Hrank : length (shape (simplify_array c)) = rank t).
  { simpl. rewrite Hsc. simpl. rewrite length_pop_at by auto. unfold rank. lia. }
  rewrite Hrank. unfold py_pop. rewrite length_seq.
  assert (Hb : (i <? rank t) = true) by (apply Nat.ltb_lt; exact Hlt).
  rewrite Hb. cbn [bind].
  destruct (@moveaxis_code_spec _ (simplify_array c) i (rank t) Hrank Hlt)
    as (r & Hr & Hsr & Hir).
  exists r. split; [exact Hr|]. split.
  - rewrite Hsr. simpl. rewrite Hsc. reflexivity.
  - intros idx Hidx. rewrite Hir by exact Hidx. simpl.
    unfold raised_entry. f_equal. apply Hic.
    unfold rank in *. rewrite length_pop_at by lia. lia.
Qed.

(** The same axis in the words of the specification. *)
Lemma spec_step_act (metric : MetricTensor) (i : nat) (action : Z)
  (t : NDimArray) (m0 d : nat) :
  action <> 0%Z ->
  shape (spec_metric_form metric action) = [m0; d] ->
  nth_error (shape t) i = Some d ->
  exists r,
    spec_step metric i action t = Ok r /\
    shape r = insert_at i m0 (pop_at i (shape t)) /\
    forall idx, length idx = rank t ->
      item r idx = raised_entry (spec_metric_form metric action) t d i idx.
Proof.
  intros Hne Hm Hi.
  assert (Hlt : i < length (shape t)) by (apply nth_error_Some; congruence).
  unfold spec_step, NoOp. apply Z.eqb_neq in Hne. rewrite Hne.
  destruct (contraction_code _ t i Hm Hi) as (c & Hc & Hsc & Hic).
  rewrite Hc. cbn [bind]. eexists. split; [reflexivity|]. split.
  - simpl. rewrite Hsc. reflexivity.
  - intros idx Hidx. simpl. unfold raised_entry. f_equal. apply Hic.
    unfold rank in *. rewrite length_pop_at by lia. lia.
Qed.

(** Equal arrays give equal entries after a step. *)
Lemma raised_entry_congr (m t t' : NDimArray) (d i : nat) (idx : list nat) :
  array_eq t t' -> valid_index (shape t) idx ->
  nth_error (shape t) i = Some d ->
  raised_entry m t d i idx = raised_entry m t' d i idx.
Proof.
  intros [Hs He] Hv Hi.
  assert (Hlt : i < length (shape t)) by (apply nth_error_Some; congruence).
  unfold raised_entry. f_equal. apply isum_ext. intros js Hjs. f_equal.
  apply He. apply valid_index_update; auto.
  rewrite (nth_error_nth _ _ 0 Hi). exact Hjs.
Qed.

End StepFacts.

(** ** The whole transform *)

Section TransformFacts.
Context {SE : SympyExpr}.

Lemma difference_list_actions (newconfig oldconfig : string) :
  Forall is_action (_difference_list newconfig oldconfig).
Proof.
  rewrite difference_list_map. apply Forall_forall. intros a Ha.
  apply in_map_iff in Ha. destruct Ha as ([n o] & <- & _).
  unfold is_action, action_of.
  destruct (Ascii.eqb n o); [|destruct (Ascii.eqb n "u")]; auto.
Qed.

(** A step on an axis of extent [d], with a [d] by [d] metric form, is the
    array [raise_at] describes. *)
Lemma chain_step_raise_at (metric : MetricTensor) (i : nat) (action : Z)
  (t : NDimArray) (d : nat) :
  square_metric d metric -> is_action action -> action <> 0%Z ->
  nth_error (shape t) i = Some d ->
  exists r,
    chain_step metric i action t = Ok r /\
    array_eq r (raise_at (spec_metric_form metric action) d i t).
Proof.
  intros Hsq Ha Hne Hi.
  destruct (@chain_step_act _ metric i action t d d Ha Hne
              (@square_metric_form _ d metric action Hsq) Hi)
    as (r & Hr & Hs & Hit).
  rewrite (@insert_pop_same d (shape t) i Hi) in Hs.
  exists r. split; [exact Hr|]. split; [exact Hs|].
  intros idx Hv. simpl. apply Hit.
  rewrite Hs in Hv. apply valid_index_length in Hv. exact Hv.
Qed.

Lemma spec_step_raise_at (metric : MetricTensor) (i : nat) (action : Z)
  (t : NDimArray) (d : nat) :
  square_metric d metric -> action <> 0%Z ->
  nth_error (shape t) i = Some d ->
  exists r,
    spec_step metric i action t = Ok r /\
    array_eq r (raise_at (spec_metric_form metric action) d i t).
Proof.
  intros Hsq Hne Hi.
  destruct (@spec_step_act _ metric i action t d d Hne
              (@square_metric_form _ d metric action Hsq) Hi)
    as (r & Hr & Hs & Hit).
  rewrite (@insert_pop_same d (shape t) i Hi) in Hs.
  exists r. split; [exact Hr|]. split; [exact Hs|].
  intros idx Hv. simpl. apply Hit.
  rewrite Hs in Hv. apply valid_index_length in Hv. exact Hv.
Qed.

Lemma raise_at_congr (m t t' : NDimArray) (d i : nat) :
  array_eq t t' -> nth_error (shape t) i = Some d ->
  array_eq (raise_at m d i t) (raise_at m d i t').
Proof.
  intros Heq Hi. split; [apply Heq|].
  intros idx Hv. simpl in *. now apply raised_entry_congr.
Qed.

(** The loop of [chain_config_change] and the transform of the
    specification, started at axis [i0] on equal arrays, both succeed and
    end on equal arrays of the shape they started from. *)
Lemma chain_loop_spec (metric : MetricTensor) (d : nat) (acts : list Z) :
  square_metric d metric -> Forall is_action acts ->
  forall (i0 : nat) (t t' : NDimArray),
    uniform_shape d t -> i0 + length acts <= rank t -> array_eq t t' ->
    exists r r',
      chain_loop metric (combine (seq i0 (length acts)) acts) t = Ok r /\
      spec_transform_from metric i0 acts t' = Ok r' /\
      array_eq r r' /\ shape r = shape t.
Proof.
  intros Hsq Hacts. induction Hacts as [|a acts Ha _ IH];
    intros i0 t t' Hu Hlen Heq.
  - exists t, t'. simpl. auto.
  - cbn [length seq combine chain_loop spec_transform_from].
    simpl in Hlen. unfold rank in Hlen.
    destruct (Z.eq_dec a 0) as [E|Hne].
    + subst a. unfold chain_step, spec_step. simpl. apply IH; auto.
      unfold rank. lia.
    + assert (Hi : nth_error (shape t) i0 = Some d)
        by (apply uniform_nth_error; [exact Hu|lia]).
      assert (Hi' : nth_error (shape t') i0 = Some d)
        by (destruct Heq as [<- _]; exact Hi).
      destruct (@chain_step_raise_at metric i0 a t d Hsq Ha Hne Hi)
        as (r1 & Hr1 & Hq1).
      destruct (@spec_step_raise_at metric i0 a t' d Hsq Hne Hi')
        as (r1' & Hr1' & Hq1').
      rewrite Hr1, Hr1'. cbn [bind].
      assert (Hs1 : shape r1 = shape t) by apply Hq1.
      destruct (IH (S i0) r1 r1') as (r & r' & Hr & Hr' & Hq & Hs).
      * unfold uniform_shape. rewrite Hs1. exact Hu.
      * unfold rank. rewrite Hs1. lia.
      * eapply array_eq_trans; [exact Hq1|].
        eapply array_eq_trans; [|apply array_eq_sym; exact Hq1'].
        now apply raise_at_congr.
      * exists r, r'. repeat split; try assumption; try apply Hq. congruence.
Qed.

(** The transform on a well-formed tensor: success, agreement with the
    specification's procedure, and the shape of the input. *)
Lemma change_config_spec (T : Tensor) (metric : MetricTensor)
  (newconfig : string) (d : nat) :
  rank (arr T) = String.length (config T) ->
  String.length newconfig = String.length (config T) ->
  _config_checker (PyStr newconfig) = true ->
  square_metric d metric -> uniform_shape d (arr T) ->
  exists r r',
    _change_config T metric (PyStr newconfig) = Ok r /\
    spec_transform metric (config T) newconfig (arr T) = Ok r' /\
    array_eq r r' /\ shape r = shape (arr T).
Proof.
  intros Hrank Hlen Hchk Hsq Hu.
  rewrite change_config_str, Hlen, Nat.eqb_refl, Hchk. cbn [andb negb].
  unfold chain_config_change, spec_transform, Diff, enumerate, tensor.
  apply chain_loop_spec with (d := d); auto.
  - apply difference_list_actions.
  - rewrite difference_list_length by exact Hlen. lia.
  - apply array_eq_refl.
Qed.

(** C1: on a tensor of rank [n] whose axes have the extent [d] of the metric
    (both forms [d] by [d]) and a valid new configuration of length [n], the
    transform succeeds and returns what the described procedure returns:
    the action list is processed left to right, and an action on axis [i]
    takes the contravariant form for Raise and the covariant form for Lower,
    forms the tensor product with the current array, contracts the product
    axes [(1, 2 + i)], and moves the surviving metric axis from position 0
    to position [i], the other axes keeping their order; the result has the
    rank and the shape of the input. *)
Theorem change_config_procedure (a : py_arr_arg) (c : pyobj) (T : Tensor)
  (metric : MetricTensor) (newconfig : string) (n d : nat) :
  Tensor_init a c = Ok T ->
  rank (arr T) = n -> order T = n ->
  String.length newconfig = n -> _config_checker (PyStr newconfig) = true ->
  square_metric d metric -> uniform_shape d (arr T) ->
  exists r r',
    _change_config T metric (PyStr newconfig) = Ok r /\
    spec_transform metric (config T) newconfig (arr T) = Ok r' /\
    array_eq r r' /\
    rank r = rank (arr T) /\ shape r = shape (arr T).
Proof.
  intros Hinit Hrank Hord Hlen Hchk Hsq Hu.
  destruct (@Tensor_init_ok _ a c T Hinit) as (_ & _ & Ho & _).
  destruct (@change_config_spec T metric newconfig d) as (r & r' & H1 & H2 & H3 & H4);
    try assumption; try congruence.
  exists r, r'. repeat split; try assumption; try apply H3.
  unfold rank. now rewrite H4.
Qed.

End TransformFacts.

(** ** Sums of scalars *)

Section Sums.
Context {SE : SympyExpr}.
Hypothesis Eth : semi_ring_theory S_Zero S_One expr_add expr_mul eq.

Add Ring ExprRing : Eth.

Lemma isum_zero (d : nat) : isum d (fun _ => S_Zero) = S_Zero.
Proof.
  induction d as [|d IH]; [reflexivity|]. rewrite isum_S, IH. ring.
Qed.

Lemma isum_add (d : nat) (f g : nat -> Expr) :
  isum d (fun k => expr_add (f k) (g k)) = expr_add (isum d f) (isum d g).
Proof.
  induction d as [|d IH].
  - rewrite !isum_0. ring.
  - rewrite !isum_S, IH. ring.
Qed.

Lemma isum_mul_l (d : nat) (x : Expr) (f : nat -> Expr) :
  expr_mul x (isum d f) = isum d (fun k => expr_mul x (f k)).
Proof.
  induction d as [|d IH].
  - rewrite !isum_0. ring.
  - rewrite !isum_S, <- IH. ring.
Qed.

Lemma isum_mul_r (d : nat) (x : Expr) (f : nat -> Expr) :
  expr_mul (isum d f) x = isum d (fun k => expr_mul (f k) x).
Proof.
  induction d as [|d IH].
  - rewrite !isum_0. ring.
  - rewrite !isum_S, <- IH. ring.
Qed.

Lemma isum_swap (d e : nat) (f : nat -> nat -> Expr) :
  isum d (fun k => isum e (fun l => f k l))
  = isum e (fun l => isum d (fun k => f k l)).
Proof.
  induction d as [|d IH].
  - rewrite isum_0. symmetry. apply isum_zero.
  - rewrite isum_S, IH.
    rewrite (@isum_ext _ e (fun l => isum (S d) (fun k => f k l))
                      (fun l => expr_add (isum d (fun k => f k l)) (f d l))).
    + now rewrite isum_add.
    + intros l _. apply (@isum_S _ d (fun k => f k l)).
Qed.

Lemma isum_delta (d a : nat) (f : nat -> Expr) :
  a < d -> isum d (fun l => expr_mul (delta a l) (f l)) = f a.
Proof.
  induction d as [|d IH]; intros Ha; [lia|].
  rewrite isum_S. unfold delta at 2.
  destruct (Nat.eqb_spec a d) as [E|N].
  - subst a.
    rewrite (@isum_ext _ d (fun l => expr_mul (delta d l) (f l)) (fun _ => S_Zero)).
    + rewrite isum_zero. ring.
    + intros k Hk. unfold delta.
      destruct (Nat.eqb_spec d k); [lia|]. ring.
  - rewrite IH by lia. ring.
Qed.

End Sums.

(** ** Updating one position of a multi-index *)

Lemma length_update (idx : list nat) (i k : nat) :
  i < length idx -> length (insert_at i k (pop_at i idx)) = length idx.
Proof. intros H. rewrite length_insert_at, length_pop_at by exact H. lia. Qed.

Lemma nth_update (idx : list nat) (i k p : nat) :
  i < length idx ->
  nth p (insert_at i k (pop_at i idx)) 0
  = if p =? i then k else nth p idx 0.
Proof.
  revert i p. induction idx as [|x idx IH]; intros i p Hi; simpl in Hi; [lia|].
  destruct i as [|i]; simpl.
  - destruct p; reflexivity.
  - destruct idx as [|y idx]; simpl in Hi; [lia|].
    destruct p as [|p]; [reflexivity|].
    change (nth p (insert_at i k (pop_at i (y :: idx))) 0
            = if p =? i then k else nth p (y :: idx) 0).
    apply IH. simpl. lia.
Qed.

Lemma update_update (idx : list nat) (i k l : nat) :
  i < length idx ->
  insert_at i l (pop_at i (insert_at i k (pop_at i idx)))
  = insert_at i l (pop_at i idx).
Proof.
  intros H. rewrite pop_insert; [reflexivity|].
  rewrite length_pop_at by exact H. lia.
Qed.

Lemma update_comm (idx : list nat) (i j k l : nat) :
  i <> j -> i < length idx -> j < length idx ->
  insert_at i k (pop_at i (insert_at j l (pop_at j idx)))
  = insert_at j l (pop_at j (insert_at i k (pop_at i idx))).
Proof.
  intros Hne Hi Hj. apply nth_ext with (d := 0) (d' := 0).
  - rewrite !length_update; auto; rewrite length_update; auto.
  - intros p _. rewrite !nth_update; auto; try (rewrite length_update; auto).
    destruct (Nat.eqb_spec p i), (Nat.eqb_spec p j); auto. lia.
Qed.

(** ** The action list, entry by entry *)

Section SemLoop.
Context {SE : SympyExpr}.

Lemma sem_loop_shape (metric : MetricTensor) (d : nat) (acts : list Z) :
  forall i0 t, shape (sem_loop metric d i0 acts t) = shape t.
Proof.
  induction acts as [|a acts IH]; intros i0 t; simpl; auto.
  rewrite IH. now destruct (a =? 0)%Z.
Qed.

Lemma sem_loop_congr (metric : MetricTensor) (d : nat) (acts : list Z) :
  forall i0 t t',
    uniform_shape d t -> i0 + length acts <= rank t -> array_eq t t' ->
    array_eq (sem_loop metric d i0 acts t) (sem_loop metric d i0 acts t').
Proof.
  induction acts as [|a acts IH]; intros i0 t t' Hu Hlen Heq; simpl; auto.
  simpl in Hlen. unfold rank in *.
  destruct (a =? 0)%Z.
  - apply IH; auto. lia.
  - apply IH; auto.
    + simpl. lia.
    + apply raise_at_congr; auto. apply uniform_nth_error; [exact Hu|lia].
Qed.

Lemma chain_loop_sem (metric : MetricTensor) (d : nat) (acts : list Z) :
  square_metric d metric -> Forall is_action acts ->
  forall i0 t,
    uniform_shape d t -> i0 + length acts <= rank t ->
    exists r,
      chain_loop metric (combine (seq i0 (length acts)) acts) t = Ok r /\
      array_eq r (sem_loop metric d i0 acts t).
Proof.
  intros Hsq Hacts. induction Hacts as [|a acts Ha _ IH]; intros i0 t Hu Hlen.
  - exists t. split; [reflexivity|apply array_eq_refl].
  - cbn [length seq combine chain_loop sem_loop].
    simpl in Hlen. unfold rank in Hlen.
    destruct (Z.eq_dec a 0) as [E|Hne].
    + subst a. unfold chain_step. simpl. apply IH; auto. unfold rank. lia.
    + assert (Hi : nth_error (shape t) i0 = Some d)
        by (apply uniform_nth_error; [exact Hu|lia]).
      destruct (@chain_step_raise_at _ metric i0 a t d Hsq Ha Hne Hi)
        as (r1 & Hr1 & Hq1).
      rewrite Hr1. cbn [bind].
      assert (Hs1 : shape r1 = shape t) by apply Hq1.
      destruct (IH (S i0) r1) as (r & Hr & Hq).
      * unfold uniform_shape. rewrite Hs1. exact Hu.
      * unfold rank. rewrite Hs1. lia.
      * exists r. split; [exact Hr|].
        apply Z.eqb_neq in Hne. rewrite Hne.
        eapply array_eq_trans; [exact Hq|].
        apply sem_loop_congr; auto.
        -- unfold uniform_shape. rewrite Hs1. exact Hu.
        -- unfold rank. rewrite Hs1. lia.
Qed.

End SemLoop.

(** ** Raising and lowering cancel *)

Section RoundTrip.
Context {SE : SympyExpr}.
Hypothesis Eth : semi_ring_theory S_Zero S_One expr_add expr_mul eq.
Hypothesis simplify_sound : forall e : Expr, simplify e = e.

Add Ring ExprRing' : Eth.

(** The entry of a twice-transformed array, as a double sum. *)
Lemma raised_entry_twice (m m' t : NDimArray) (d i j : nat) (idx : list nat) :
  i < length idx -> j < length idx ->
  raised_entry m (raise_at m' d j t) d i idx
  = isum d (fun k =>
      isum d (fun l =>
        expr_mul (item m [nth i idx 0; k])
          (expr_mul (item m' [nth j (insert_at i k (pop_at i idx)) 0; l])
             (item t (insert_at j l
                        (pop_at j (insert_at i k (pop_at i idx)))))))).
Proof.
  intros Hi Hj. unfold raised_entry at 1. rewrite simplify_sound.
  apply isum_ext. intros k _. simpl. unfold raised_entry.
  rewrite simplify_sound. apply (isum_mul_l Eth).
Qed.

Lemma raise_at_cancel (m m' t : NDimArray) (d i : nat) :
  product_is_identity d m' m -> nth_error (shape t) i = Some d ->
  array_eq (raise_at m' d i (raise_at m d i t)) t.
Proof.
  intros Hinv Hi.
  assert (Hlt : i < length (shape t)) by (apply nth_error_Some; congruence).
  split; [reflexivity|]. intros idx Hv. simpl in Hv.
  assert (Hlen : length idx = length (shape t))
    by now apply valid_index_length.
  assert (Ha : nth i idx 0 < d).
  { rewrite <- (nth_error_nth _ _ 0 Hi). now apply valid_index_nth. }
  simpl. rewrite raised_entry_twice by lia.
  rewrite (isum_swap Eth).
  rewrite (@isum_ext _ d _
             (fun l => expr_mul (delta (nth i idx 0) l)
                                (item t (insert_at i l (pop_at i idx))))).
  - rewrite (isum_delta Eth) by exact Ha.
    rewrite insert_pop_nth by lia. reflexivity.
  - intros l Hl. cbv beta. rewrite <- (Hinv _ _ Ha Hl).
    rewrite (isum_mul_r Eth). apply isum_ext. intros k _.
    rewrite nth_insert_at_same by (rewrite length_pop_at; lia).
    rewrite update_update by lia. ring.
Qed.

Lemma raise_at_comm (m m' t : NDimArray) (d i j : nat) :
  i <> j -> i < rank t -> j < rank t ->
  array_eq (raise_at m d i (raise_at m' d j t))
           (raise_at m' d j (raise_at m d i t)).
Proof.
  intros Hne Hi Hj. unfold rank in *.
  split; [reflexivity|]. intros idx Hv. simpl in Hv.
  assert (Hlen : length idx = length (shape t))
    by now apply valid_index_length.
  simpl. rewrite !raised_entry_twice by lia.
  rewrite (isum_swap Eth). apply isum_ext. intros l _.
  apply isum_ext. intros k _.
  rewrite !nth_update by lia.
  assert (E1 : (j =? i) = false) by (apply Nat.eqb_neq; lia).
  assert (E2 : (i =? j) = false) by (apply Nat.eqb_neq; lia).
  rewrite E1, E2. rewrite (@update_comm idx j i l k) by lia. ring.
Qed.

Lemma sem_loop_commute (metric : MetricTensor) (m : NDimArray) (d j : nat)
  (acts : list Z) :
  forall i0 t,
    uniform_shape d t -> j < i0 -> i0 + length acts <= rank t ->
    array_eq (sem_loop metric d i0 acts (raise_at m d j t))
             (raise_at m d j (sem_loop metric d i0 acts t)).
Proof.
  induction acts as [|a acts IH]; intros i0 t Hu Hj Hlen; simpl.
  - apply array_eq_refl.
  - simpl in Hlen. unfold rank in Hlen. destruct (a =? 0)%Z.
    + apply IH; auto. unfold rank. lia.
    + eapply array_eq_trans.
      * apply sem_loop_congr.
        -- exact Hu.
        -- unfold rank. simpl. lia.
        -- apply raise_at_comm; unfold rank; lia.
      * apply IH; auto. unfold rank. simpl. lia.
Qed.

Lemma sem_loop_round_trip (metric : MetricTensor) (d : nat)
  (fwd bwd : list Z) :
  exact_inverse d metric -> Forall2 opposite fwd bwd ->
  forall i0 t,
    uniform_shape d t -> i0 + length fwd <= rank t ->
    array_eq (sem_loop metric d i0 bwd (sem_loop metric d i0 fwd t)) t.
Proof.
  intros [Hinv1 Hinv2] Hopp.
  induction Hopp as [|a b fwd bwd Hab Hrest IH]; intros i0 t Hu Hlen.
  - apply array_eq_refl.
  - simpl in Hlen. unfold rank in Hlen.
    assert (Hlb : length bwd = length fwd)
      by (symmetry; eapply Forall2_length; eauto).
    assert (Hi : nth_error (shape t) i0 = Some d)
      by (apply uniform_nth_error; [exact Hu|lia]).
    assert (Hcancel : forall ma mb,
      product_is_identity d mb ma ->
      array_eq
        (sem_loop metric d (S i0) bwd
           (raise_at mb d i0 (sem_loop metric d (S i0) fwd (raise_at ma d i0 t))))
        t).
    { intros ma mb Hinv.
      eapply array_eq_trans; [|apply (IH (S i0) t); [exact Hu|unfold rank; lia]].
      apply sem_loop_congr.
      - unfold uniform_shape. simpl. rewrite sem_loop_shape. exact Hu.
      - unfold rank. simpl. rewrite sem_loop_shape. simpl. lia.
      - eapply array_eq_trans.
        + apply array_eq_sym. apply sem_loop_commute.
          * exact Hu.
          * lia.
          * unfold rank. simpl. lia.
        + apply sem_loop_congr.
          * exact Hu.
          * unfold rank. simpl. lia.
          * now apply raise_at_cancel. }
    destruct Hab as [[-> ->]|[[-> ->]|[-> ->]]]; simpl.
    + apply IH; auto. unfold rank. lia.
    + apply Hcancel. exact Hinv2.
    + apply Hcancel. exact Hinv1.
Qed.

End RoundTrip.

(** ** Converting and converting back *)

Lemma action_of_opposite (x y : ascii) :
  (x = "u"%char \/ x = "l"%char) -> (y = "u"%char \/ y = "l"%char) ->
  opposite (action_of (y, x)) (action_of (x, y)).
Proof.
  unfold opposite. intros [-> | ->] [-> | ->]; simpl; auto.
Qed.

Lemma diff_opposite (c1 c2 : string) :
  only_markers c1 -> only_markers c2 ->
  Forall2 opposite (_difference_list c2 c1) (_difference_list c1 c2).
Proof.
  rewrite !difference_list_map. revert c2.
  induction c1 as [|x c1 IH]; intros [|y c2] H1 H2; simpl; try constructor.
  - apply action_of_opposite; [apply H1|apply H2].
  - apply IH; [apply H1|apply H2].
Qed.

Section Theorems.
Context {SE : SympyExpr}.

(** Wrapping the array a transform returned, under the new configuration. *)
Lemma Tensor_init_array (a : NDimArray) (c : string) :
  _config_checker (PyStr c) = true ->
  Tensor_init (ArgArray a) (PyStr c)
  = Ok {| arr := a; _config := c; _order := String.length c |}.
Proof. intros H. unfold Tensor_init. cbn [bind]. now rewrite H. Qed.

Lemma change_config_sem (T : Tensor) (metric : MetricTensor)
  (newconfig : string) (d : nat) :
  rank (arr T) = String.length (config T) ->
  String.length newconfig = String.length (config T) ->
  _config_checker (PyStr newconfig) = true ->
  square_metric d metric -> uniform_shape d (arr T) ->
  exists r,
    _change_config T metric (PyStr newconfig) = Ok r /\
    array_eq r (sem_loop metric d 0 (_difference_list newconfig (config T))
                         (arr T)).
Proof.
  intros Hrank Hlen Hchk Hsq Hu.
  rewrite change_config_str, Hlen, Nat.eqb_refl, Hchk. cbn [andb negb].
  unfold chain_config_change, enumerate, tensor.
  apply chain_loop_sem; auto.
  - apply difference_list_actions.
  - rewrite difference_list_length by exact Hlen. lia.
Qed.

(** C6: with a metric whose contravariant form is the exact inverse of its
    covariant form (scalars obeying the laws of a commutative semiring and
    [simplify] returning an equal scalar), converting a tensor from its
    configuration to a valid configuration [c2] of the same length, wrapping
    the result under [c2] and converting back yields an array equal to the
    tensor's array. *)
Theorem change_config_round_trip (a : py_arr_arg) (c : pyobj) (T : Tensor)
  (metric : MetricTensor) (c2 : string) (d : nat) :
  semi_ring_theory S_Zero S_One expr_add expr_mul eq ->
  (forall e : Expr, simplify e = e) ->
  Tensor_init a c = Ok T ->
  rank (arr T) = order T -> uniform_shape d (arr T) ->
  String.length c2 = order T -> _config_checker (PyStr c2) = true ->
  square_metric d metric -> exact_inverse d metric ->
  exists A2 T2 A1,
    _change_config T metric (PyStr c2) = Ok A2 /\
    Tensor_init (ArgArray A2) (PyStr c2) = Ok T2 /\
    _change_config T2 metric (PyStr (config T)) = Ok A1 /\
    array_eq A1 (arr T).
Proof.
  intros Eth Hsimp Hinit Hrank Hu Hlen Hchk Hsq Hinv.
  destruct (@Tensor_init_ok _ a c T Hinit) as (Hc & -> & Ho & _).
  rewrite Ho in Hrank, Hlen.
  destruct (@change_config_sem T metric c2 d Hrank Hlen Hchk Hsq Hu)
    as (A2 & HA2 & Hq2).
  assert (Hs2 : shape A2 = shape (arr T)).
  { destruct Hq2 as [Hs _]. rewrite Hs. apply sem_loop_shape. }
  set (T2 := {| arr := A2; _config := c2; _order := String.length c2 |}).
  destruct (@change_config_sem T2 metric (config T) d) as (A1 & HA1 & Hq1).
  - unfold rank. simpl. rewrite Hs2. fold (rank (arr T)). congruence.
  - simpl. congruence.
  - exact Hc.
  - exact Hsq.
  - unfold uniform_shape. simpl. rewrite Hs2. exact Hu.
  - exists A2, T2, A1. split; [exact HA2|]. split; [now apply Tensor_init_array|].
    split; [exact HA1|]. simpl in Hq1.
    eapply array_eq_trans; [exact Hq1|].
    eapply array_eq_trans.
    + apply sem_loop_congr.
      * unfold uniform_shape. rewrite Hs2. exact Hu.
      * unfold rank. rewrite Hs2. fold (rank (arr T)).
        rewrite difference_list_length; lia.
      * exact Hq2.
    + apply sem_loop_round_trip; auto.
      * apply diff_opposite; apply config_loop_only_markers; assumption.
      * rewrite difference_list_length; lia.
Qed.

End Theorems.

(** ** The rank invariant *)

(** C5, as stated, fails at construction: a rank-1 array under the default
    configuration gives a Tensor of order 2. *)
Lemma rank_not_checked :
  exists T,
    Tensor_init (SE := ZExpr) (ArgNested Examples.v123) (PyStr "ll") = Ok T /\
    order T = String.length (config T) /\
    String.length (config T) <> rank (arr T).
Proof.
  eexists. split; [reflexivity|]. split; [reflexivity|]. simpl. discriminate.
Qed.

(** C5 (amended): a constructed Tensor has [order == len(config)], the rank
    of its array being whatever the caller passed; the Tensor returned by
    [subs] has [order == len(config)] too and an array of the shape of the
    original; and when the rank of the array is the order (axes of the
    extent of a square metric), a configuration change followed by the
    wrapping of its result gives a Tensor with
    [order == len(config) == rank(array)]. *)
Theorem rank_invariant {SE : SympyExpr} (a : py_arr_arg) (c : pyobj)
  (T : Tensor) (args : SubsArgs) (metric : MetricTensor) (newconfig : string)
  (d : nat) :
  Tensor_init a c = Ok T ->
  order T = String.length (config T) /\
  (exists T', subs T args = Ok T' /\
              order T' = String.length (config T') /\
              shape (arr T') = shape (arr T)) /\
  (rank (arr T) = order T ->
   String.length newconfig = order T ->
   _config_checker (PyStr newconfig) = true ->
   square_metric d metric -> uniform_shape d (arr T) ->
   exists A2 T2,
     _change_config T metric (PyStr newconfig) = Ok A2 /\
     Tensor_init (ArgArray A2) (PyStr newconfig) = Ok T2 /\
     order T2 = String.length (config T2) /\
     String.length (config T2) = rank (arr T2)).
Proof.
  intros Hinit.
  destruct (@Tensor_init_ok _ a c T Hinit) as (Hc & Hcfg & Ho & _).
  split; [exact Ho|]. split.
  - eexists. split; [apply subs_result|]. split; reflexivity.
  - intros Hrank Hlen Hchk Hsq Hu. rewrite Ho in Hrank, Hlen.
    destruct (@change_config_spec _ T metric newconfig d Hrank Hlen Hchk Hsq Hu)
      as (A2 & _ & HA2 & _ & _ & Hs).
    exists A2, {| arr := A2; _config := newconfig;
                  _order := String.length newconfig |}.
    split; [exact HA2|]. split; [now apply Tensor_init_array|].
    split; [reflexivity|]. simpl. unfold rank in *. rewrite Hs. congruence.
Qed.

Lemma rank_invariant_witness :
  exists A2 T2,
    _change_config (SE := ZExpr)
      {| arr := Examples.t_ll_arr; _config := "ll"; _order := 2 |}
      Examples.g (PyStr "ul") = Ok A2 /\
    Tensor_init (ArgArray A2) (PyStr "ul") = Ok T2 /\
    order T2 = String.length (config T2) /\
    String.length (config T2) = rank (arr T2).
Proof.
  destruct (@rank_invariant ZExpr (ArgArray Examples.t_ll_arr) (PyStr "ll")
              {| arr := Examples.t_ll_arr; _config := "ll"; _order := 2 |}
              tt Examples.g "ul" 2 eq_refl) as (_ & _ & H).
  apply H; try reflexivity.
  - split; reflexivity.
  - repeat constructor.
Defined.

(** ** Substitution *)

(** C4 fails on the code: [subs] on the rank-1 tensor [[x]] of configuration
    ['u'] returns the substituted array [[1]] wrapped under the default
    configuration ['ll'], of order 2. *)
Theorem subs_drops_configuration :
  Tensor_init (SE := SymExpr)
    (ArgNested (vector (SE := SymExpr) [SSym "x"])) (PyStr "u")
  = Ok Examples.x_up /\
  exists T',
    subs (SE := SymExpr) Examples.x_up ("x", SNum 1) = Ok T' /\
    item (arr T') [0] = SNum 1 /\
    shape (arr T') = shape (arr Examples.x_up) /\
    config Examples.x_up = "u" /\
    config T' = "ll" /\
    order T' = 2 /\ rank (arr T') = 1.
Proof.
  split; [reflexivity|]. eexists. split; [reflexivity|].
  repeat split.
Qed.

(** ** Explicit but empty [variables] and [functions] *)


Lemma name_insert_in (v x : string) (l : list string) :
  In x (name_insert v l) <-> x = v \/ In x l.
Proof.
  induction l as [|w l IH]; simpl.
  - intuition.
  - destruct (String.leb v w); simpl; [intuition|]. rewrite IH. intuition.
Qed.

Lemma sort_by_name_in (x : string) (l : list string) :
  In x (sort_by_name l) <-> In x l.
Proof.
  induction l as [|v l IH]; simpl; [tauto|].
  rewrite name_insert_in, IH. intuition.
Qed.



(** ** The theorems at a concrete tensor

    The rank-2 tensor [[1, 2], [3, 4]] of configuration ['ll'] and the metric
    of [Examples], over the integers. *)

Lemma Z_semi_ring :
  semi_ring_theory (S_Zero (SympyExpr := ZExpr)) S_One expr_add expr_mul eq.
Proof.
  exact (mk_srt 0%Z 1%Z Z.add Z.mul eq Z.add_0_l Z.add_comm Z.add_assoc
           Z.mul_1_l Z.mul_0_l Z.mul_comm Z.mul_assoc Z.mul_add_distr_r).
Defined.

Lemma g_exact_inverse : exact_inverse (SE := ZExpr) 2 Examples.g.
Proof.
  split; intros a b Ha Hb;
    destruct a as [|[|a]]; destruct b as [|[|b]]; try lia; reflexivity.
Defined.

Lemma change_config_procedure_witness :
  exists r r',
    _change_config (SE := ZExpr)
      {| arr := Examples.t_ll_arr; _config := "ll"; _order := 2 |}
      Examples.g (PyStr "ul") = Ok r /\
    spec_transform Examples.g "ll" "ul" Examples.t_ll_arr = Ok r' /\
    array_eq r r' /\
    rank r = 2 /\ shape r = [2; 2].
Proof.
  apply (@change_config_procedure ZExpr (ArgArray Examples.t_ll_arr)
           (PyStr "ll")
           {| arr := Examples.t_ll_arr; _config := "ll"; _order := 2 |}
           Examples.g "ul" 2 2); try reflexivity.
  - split; reflexivity.
  - repeat constructor.
Defined.

Lemma change_config_round_trip_witness :
  exists A2 T2 A1,
    _change_config (SE := ZExpr)
      {| arr := Examples.t_ll_arr; _config := "ll"; _order := 2 |}
      Examples.g (PyStr "ul") = Ok A2 /\
    Tensor_init (ArgArray A2) (PyStr "ul") = Ok T2 /\
    _change_config T2 Examples.g (PyStr "ll") = Ok A1 /\
    array_eq A1 Examples.t_ll_arr.
Proof.
  apply (@change_config_round_trip ZExpr (ArgArray Examples.t_ll_arr)
           (PyStr "ll")
           {| arr := Examples.t_ll_arr; _config := "ll"; _order := 2 |}
           Examples.g "ul" 2); try reflexivity.
  - exact Z_semi_ring.
  - repeat constructor.
  - split; reflexivity.
  - exact g_exact_inverse.
Defined.

Lemma change_config_identity_witness :
  Diff "ll" "ll" = repeat NoOp 2 /\
  _change_config (SE := ZExpr)
    {| arr := Examples.t_ll_arr; _config := "ll"; _order := 2 |}
    Examples.g (PyStr "ll") = Ok Examples.t_ll_arr.
Proof.
  apply (@change_config_identity ZExpr (ArgArray Examples.t_ll_arr)
           (PyStr "ll")
           {| arr := Examples.t_ll_arr; _config := "ll"; _order := 2 |}
           Examples.g).
  reflexivity.
Defined.

Lemma change_config_rejects_witness :
  _change_config (SE := ZExpr)
    {| arr := Examples.t_ll_arr; _config := "ll"; _order := 2 |}
    Examples.g (PyStr "ulu") = Err (ValueError "") /\
  _change_config (SE := ZExpr)
    {| arr := Examples.t_ll_arr; _config := "ll"; _order := 2 |}
    Examples.g (PySeq ["u"; "l"]) = Err (ValueError "") /\
  _change_config (SE := ZExpr)
    {| arr := Examples.t_ll_arr; _config := "ll"; _order := 2 |}
    Examples.g PyNone
  = Err (TypeError "object of type 'NoneType' has no len()").
Proof.
  split; [|split].
  - apply (proj1 (@change_config_rejects ZExpr (ArgArray Examples.t_ll_arr)
             (PyStr "ll")
             {| arr := Examples.t_ll_arr; _config := "ll"; _order := 2 |}
             Examples.g (PyStr "ulu") eq_refl) 3 eq_refl).
    left. simpl. lia.
  - apply (proj1 (@change_config_rejects ZExpr (ArgArray Examples.t_ll_arr)
             (PyStr "ll")
             {| arr := Examples.t_ll_arr; _config := "ll"; _order := 2 |}
             Examples.g (PySeq ["u"; "l"]) eq_refl) 2 eq_refl).
    right. reflexivity.
  - apply (proj2 (@change_config_rejects ZExpr (ArgArray Examples.t_ll_arr)
             (PyStr "ll")
             {| arr := Examples.t_ll_arr; _config := "ll"; _order := 2 |}
             Examples.g PyNone eq_refl) _ eq_refl).
Defined.

(** ** Worked examples *)

(** Raising the first index of [[1, 2], [3, 4]] with the contravariant form
    [[1, -1], [0, 1]]: entry [(a, b)] is the sum over [k] of
    [g_contra[a, k] * t[k, b]]. *)
Example raise_first_index :
  exists r,
    _change_config (SE := ZExpr)
      {| arr := Examples.t_ll_arr; _config := "ll"; _order := 2 |}
      Examples.g (PyStr "ul") = Ok r /\
    shape r = [2; 2] /\
    tolist r = [-2; -2; 3; 4]%Z.
Proof. eexists. split; [reflexivity|]. split; reflexivity. Qed.

(** Lowering the second index of the same array contracts its second axis
    with the covariant form [[1, 1], [0, 1]]. *)
Example lower_second_index :
  exists r,
    _change_config (SE := ZExpr)
      {| arr := Examples.t_ll_arr; _config := "lu"; _order := 2 |}
      Examples.g (PyStr "ll") = Ok r /\
    shape r = [2; 2] /\
    tolist r = [3; 2; 7; 4]%Z.
Proof. eexists. split; [reflexivity|]. split; reflexivity. Qed.

(** Outside the domain of the theorems above, the array primitives raise:
    an axis of extent 3 does not contract with a 2 by 2 metric form, and an
    array of rank 1 under a configuration of length 2 has no axis 1. *)
Example extent_mismatch_raises :
  _change_config (SE := ZExpr)
    {| arr := Examples.v123; _config := "l"; _order := 1 |}
    Examples.g (PyStr "u")
  = Err (ValueError "cannot contract between axes of different dimension").
Proof. reflexivity. Qed.

Example rank_mismatch_raises :
  _change_config (SE := ZExpr)
    {| arr := Examples.v123; _config := "ll"; _order := 2 |}
    Examples.g (PyStr "lu")
  = Err (IndexError "tuple index out of range").
Proof. reflexivity. Qed.

(** * Further properties of the module *)

(** ** The diff engine on arbitrary strings *)

Lemma zip_length_min (a b : string) :
  length (zip a b) = Nat.min (String.length a) (String.length b).
Proof.
  revert b. induction a as [|x a IH]; intros [|y b]; simpl; auto.
Qed.

(** X1: [zip] stops at the shorter configuration, so the action list has
    the length of the shorter one; the engine itself never complains about
    a length mismatch. *)
Theorem difference_list_truncates (newconfig oldconfig : string) :
  length (_difference_list newconfig oldconfig)
  = Nat.min (String.length newconfig) (String.length oldconfig).
Proof. rewrite difference_list_map, length_map. apply zip_length_min. Qed.

Lemma action_of_zero (n o : ascii) : action_of (n, o) = 0%Z <-> n = o.
Proof.
  simpl. destruct (Ascii.eqb_spec n o) as [E|N].
  - tauto.
  - split; [|contradiction]. destruct (Ascii.eqb n "u"); discriminate.
Qed.

(** X2: between configurations of the same length the action list is all
    NoOp exactly when the two configurations are the same string. *)
Theorem difference_list_noop_iff (newconfig oldconfig : string) :
  String.length newconfig = String.length oldconfig ->
  (Forall (fun a => a = NoOp) (_difference_list newconfig oldconfig)
   <-> newconfig = oldconfig).
Proof.
  rewrite difference_list_map. revert oldconfig.
  induction newconfig as [|x n IH]; intros [|y o] Hlen; simpl in Hlen;
    try discriminate.
  - simpl. split; auto.
  - cbn [zip map]. split.
    + intros H. inversion H as [|? ? Hhd Htl]; subst.
      apply action_of_zero in Hhd. subst y.
      f_equal. apply IH; [lia|exact Htl].
    + intros [= -> ->]. constructor.
      * now apply action_of_zero.
      * apply IH; auto.
Qed.

Lemma difference_list_noop_iff_witness :
  Forall (fun a => a = NoOp) (_difference_list "ulu" "ulu") <-> "ulu" = "ulu".
Proof. apply (@difference_list_noop_iff "ulu" "ulu"). reflexivity. Defined.

(** X3: on strings of markers, the actions of the conversion back are the
    opposites of the actions of the conversion. *)
Theorem difference_list_reverse (c1 c2 : string) :
  only_markers c1 -> only_markers c2 ->
  _difference_list c1 c2 = map Z.opp (_difference_list c2 c1).
Proof.
  rewrite !difference_list_map. revert c2.
  induction c1 as [|x c1 IH]; intros [|y c2] H1 H2; simpl; auto.
  destruct H1 as [Hx H1], H2 as [Hy H2].
  rewrite <- (IH c2 H1 H2). f_equal.
  destruct Hx as [-> | ->], Hy as [-> | ->]; reflexivity.
Qed.

Lemma difference_list_reverse_witness :
  _difference_list "ul" "lu" = map Z.opp (_difference_list "lu" "ul").
Proof.
  apply (@difference_list_reverse "ul" "lu"); simpl; auto.
Defined.

(** ** The constructor of [Tensor] *)

Section TensorConstructor.
Context {SE : SympyExpr}.

(** X4: the constructor succeeds exactly on a sympy Array, or a list-like
    argument of which [sympy.Array] makes an array, together with a string
    of markers; the Tensor it returns stores that array, that string and
    its length. *)
Theorem Tensor_init_success_iff (a : py_arr_arg) (c : pyobj) (T : Tensor) :
  Tensor_init a c = Ok T <->
  (a = ArgNested (arr T) \/ a = ArgArray (arr T)) /\
  c = PyStr (config T) /\ only_markers (config T) /\
  order T = String.length (config T).
Proof.
  split.
  - intros H. destruct (@Tensor_init_ok _ a c T H) as (Hc & Hcfg & Ho & Ha).
    repeat split; auto. apply config_loop_only_markers.
    rewrite Hcfg in Hc. exact Hc.
  - intros (Ha & Hc & Hm & Ho). destruct T as [ar cf od]. simpl in *.
    subst c od. apply config_loop_only_markers in Hm.
    unfold Tensor_init. destruct Ha as [-> | ->]; cbn [bind]; simpl;
      rewrite Hm; reflexivity.
Qed.

(** X5: the array is examined, and converted, before the configuration.
    An argument that is neither list-like nor an array raises the array
    TypeError whatever the configuration is; a list-like argument that
    [sympy.Array] refuses lets the ValueError of that call through,
    whatever the configuration is; and the configuration TypeError is
    raised exactly for an accepted array with a rejected configuration. *)
Theorem Tensor_init_error_order :
  (forall a c, a = ArgNone \/ a = ArgOther ->
     Tensor_init a c = Err (TypeError
       "Only multi-dimensional list or Sympy Array is expected")) /\
  (forall c,
     Tensor_init ArgRagged c
     = Err (ValueError "could not determine shape unambiguously")) /\
  (forall a c,
     Tensor_init a c = Err (TypeError
       "config is either not of type 'str' or does contain characters other than 'l' or 'u'")
     <-> (exists x, a = ArgNested x \/ a = ArgArray x) /\
         _config_checker c = false).
Proof.
  unfold Tensor_init. split; [|split].
  - intros a c [-> | ->]; reflexivity.
  - reflexivity.
  - intros a c. split.
    + destruct a as [x|x| | |]; cbn [bind]; try discriminate;
        destruct (_config_checker c); try discriminate; eauto.
    + intros ((x & [-> | ->]) & Hc); cbn [bind]; rewrite Hc; reflexivity.
Qed.

(** X6: [subs] always returns a Tensor, whose array has the shape of the
    original; that Tensor keeps the configuration only when the
    configuration is ['ll'], and its order is the rank of its array only
    when the array has rank 2. *)
Theorem subs_consistency (T : Tensor) (args : SubsArgs) :
  exists T',
    subs T args = Ok T' /\
    shape (arr T') = shape (arr T) /\
    (config T' = config T <-> config T = "ll") /\
    (order T' = rank (arr T') <-> rank (arr T) = 2).
Proof.
  eexists. split; [apply subs_result|]. simpl.
  split; [reflexivity|]. split.
  - split; congruence.
  - unfold rank, tensor. simpl. split; congruence.
Qed.

End TensorConstructor.

(** ** The constructor of [BaseRelativityTensor] *)

Lemma name_insert_perm (v : string) (l : list string) :
  Permutation (name_insert v l) (v :: l).
Proof.
  induction l as [|w l IH]; simpl; auto.
  destruct (String.leb v w); auto.
  rewrite IH. apply perm_swap.
Qed.

Lemma sort_by_name_perm (l : list string) : Permutation (sort_by_name l) l.
Proof.
  induction l as [|v l IH]; simpl; auto.
  rewrite name_insert_perm. now constructor.
Qed.

Lemma name_insert_sorted (v : string) (l : list string) :
  Sorted name_le l -> Sorted name_le (name_insert v l).
Proof.
  induction 1 as [|w l Hl IH Hw]; simpl.
  - repeat constructor.
  - destruct (String.leb v w) eqn:E.
    + constructor; [constructor; assumption|]. constructor. exact E.
    + constructor; [exact IH|].
      assert (Hwv : name_le w v).
      { destruct (String.leb_total v w) as [H|H]; [congruence|exact H]. }
      destruct Hw as [|x l Hx]; simpl.
      * constructor. exact Hwv.
      * destruct (String.leb v x); constructor; assumption.
Qed.

Lemma sort_by_name_sorted (l : list string) : Sorted name_le (sort_by_name l).
Proof.
  induction l as [|v l IH]; simpl; [constructor|].
  now apply name_insert_sorted.
Qed.

Section BaseRelativityTensorConstructor.
Context {SE : SympyExpr}.

(** What a successful construction went through and stored. *)
Lemma BaseRelativityTensor_init_inv (arr_ : py_arr_arg) (syms_ : pycoll)
  (config_ : pyobj) (pm : option MetricTensor)
  (variables_ functions_ : pycoll) (name_ : option string)
  (t : BaseRelativityTensor) :
  BaseRelativityTensor_init arr_ syms_ config_ pm variables_ functions_ name_
  = Ok t ->
  Tensor_init arr_ config_ = Ok (base t) /\
  is_list_or_tuple syms_ = true /\
  is_list_tuple_or_set variables_ = true /\
  is_list_tuple_or_set functions_ = true /\
  syms t = coll_items syms_ /\
  dims t = length (coll_items syms_) /\
  _parent_metric t = pm /\ name t = name_ /\
  variables t =
    (if py_not variables_
     then sort_by_name
            (filter (fun v => negb (existsb (String.eqb v) (coll_items syms_)))
                    (array_free_symbols (arr (base t))))
     else coll_items variables_) /\
  functions t =
    (if py_not functions_
     then array_undefined_functions (arr (base t))
     else coll_items functions_).
Proof.
  unfold BaseRelativityTensor_init. intros H.
  destruct (Tensor_init arr_ config_) as [self|e]; cbn [bind] in H;
    [|discriminate].
  destruct (is_list_or_tuple syms_); [|discriminate].
  destruct (is_list_tuple_or_set variables_); [|discriminate].
  destruct (is_list_tuple_or_set functions_); [|discriminate].
  simpl in H. injection H as <-. simpl. repeat split; reflexivity.
Qed.

(** X7: the construction succeeds exactly when the Tensor part does, the
    coordinate symbols come as a list or a tuple, and [variables] and
    [functions] are both lists, tuples or sets. *)
Theorem BaseRelativityTensor_init_success_iff (arr_ : py_arr_arg)
  (syms_ : pycoll) (config_ : pyobj) (pm : option MetricTensor)
  (variables_ functions_ : pycoll) (name_ : option string) :
  (exists t,
     BaseRelativityTensor_init arr_ syms_ config_ pm variables_ functions_
       name_ = Ok t) <->
  (exists T, Tensor_init arr_ config_ = Ok T) /\
  is_list_or_tuple syms_ = true /\
  is_list_tuple_or_set variables_ = true /\
  is_list_tuple_or_set functions_ = true.
Proof.
  split.
  - intros [t H]. apply BaseRelativityTensor_init_inv in H.
    destruct H as (H1 & H2 & H3 & H4 & _). eauto.
  - intros ([T HT] & Hs & Hv & Hf). unfold BaseRelativityTensor_init.
    rewrite HT. cbn [bind]. rewrite Hs, Hv, Hf. simpl. eauto.
Qed.

(** X8: the checks come in a fixed order.  An error of the Tensor part is
    passed on unchanged; with a sound Tensor part, coordinate symbols that
    are not a list or a tuple (a set, for one) are reported before
    [variables] and [functions] are looked at; and one argument among
    [variables] and [functions] that is no collection fails the
    construction whatever the other is. *)
Theorem BaseRelativityTensor_init_error_order (arr_ : py_arr_arg)
  (syms_ : pycoll) (config_ : pyobj) (pm : option MetricTensor)
  (variables_ functions_ : pycoll) (name_ : option string) :
  (forall e, Tensor_init arr_ config_ = Err e ->
     BaseRelativityTensor_init arr_ syms_ config_ pm variables_ functions_
       name_ = Err e) /\
  (forall T, Tensor_init arr_ config_ = Ok T ->
     is_list_or_tuple syms_ = false ->
     BaseRelativityTensor_init arr_ syms_ config_ pm variables_ functions_
       name_ = Err (TypeError "syms should be a list or tuple")) /\
  (forall T, Tensor_init arr_ config_ = Ok T ->
     is_list_or_tuple syms_ = true ->
     variables_ = CNotColl \/ functions_ = CNotColl ->
     BaseRelativityTensor_init arr_ syms_ config_ pm variables_ functions_
       name_ = Err (TypeError
         "arguments variables and functions should be a list, tuple or set")).
Proof.
  unfold BaseRelativityTensor_init. repeat split.
  - intros e H. now rewrite H.
  - intros T H Hs. rewrite H. cbn [bind]. now rewrite Hs.
  - intros T H Hs [-> | ->]; rewrite H; cbn [bind]; rewrite Hs; simpl.
    + reflexivity.
    + now rewrite andb_false_r.
Qed.

(** The variables the constructor computes. *)
Lemma auto_variables_facts (arr_ : py_arr_arg) (syms_ : pycoll)
  (config_ : pyobj) (pm : option MetricTensor)
  (variables_ functions_ : pycoll) (name_ : option string)
  (t : BaseRelativityTensor) :
  coll_items variables_ = [] ->
  BaseRelativityTensor_init arr_ syms_ config_ pm variables_ functions_ name_
  = Ok t ->
  (forall v, In v (variables t) <->
     (exists e, In e (array_entries (arr (base t))) /\ In v (free_symbols e))
     /\ ~ In v (syms t)) /\
  NoDup (variables t) /\
  Sorted name_le (variables t).
Proof.
  intros Hempty H. apply BaseRelativityTensor_init_inv in H.
  destruct H as (_ & _ & _ & _ & Hsyms & _ & _ & _ & Hvars & _).
  unfold py_not in Hvars. rewrite Hempty in Hvars. rewrite Hvars, Hsyms.
  split; [|split].
  - intros v. rewrite sort_by_name_in, filter_In.
    unfold array_free_symbols. rewrite nodup_In, in_flat_map.
    rewrite negb_true_iff. split.
    + intros [Hin Hex]. split; [exact Hin|]. intros Hs.
      assert (E : existsb (String.eqb v) (coll_items syms_) = true).
      { apply existsb_exists. exists v. split; [exact Hs|apply String.eqb_refl]. }
      congruence.
    + intros [Hin Hs]. split; [exact Hin|].
      destruct (existsb _ _) eqn:E; [|reflexivity].
      apply existsb_exists in E. destruct E as (w & Hw & Ew).
      apply String.eqb_eq in Ew. subst w. contradiction.
  - eapply Permutation_NoDup.
    + apply Permutation_sym, sort_by_name_perm.
    + apply NoDup_filter, NoDup_nodup.
  - apply sort_by_name_sorted.
Qed.

(** X9: with [variables] left empty, the stored variables are exactly the
    free symbols of the entries of the array that are no coordinate
    symbols, each listed once, in non-decreasing order of name. *)
Theorem auto_variables_spec (arr_ : py_arr_arg) (syms_ : pycoll)
  (config_ : pyobj) (pm : option MetricTensor)
  (variables_ functions_ : pycoll) (name_ : option string)
  (t : BaseRelativityTensor) :
  coll_items variables_ = [] ->
  BaseRelativityTensor_init arr_ syms_ config_ pm variables_ functions_ name_
  = Ok t ->
  (forall v, In v (variables t) <->
     (exists e, In e (array_entries (arr (base t))) /\ In v (free_symbols e))
     /\ ~ In v (syms t)) /\
  NoDup (variables t) /\
  Sorted name_le (variables t).
Proof.
  intros Hempty H.
  destruct (@auto_variables_facts arr_ syms_ config_ pm variables_ functions_
              name_ t Hempty H) as (Hin & Hnd & Hsorted).
  auto.
Qed.

(** X10: a non-empty [variables] (respectively [functions]) is stored as
    it is given: it is neither filtered against the coordinate symbols nor
    compared with the array. *)
Theorem explicit_collections_verbatim (arr_ : py_arr_arg) (syms_ : pycoll)
  (config_ : pyobj) (pm : option MetricTensor)
  (variables_ functions_ : pycoll) (name_ : option string)
  (t : BaseRelativityTensor) :
  BaseRelativityTensor_init arr_ syms_ config_ pm variables_ functions_ name_
  = Ok t ->
  (coll_items variables_ <> [] -> variables t = coll_items variables_) /\
  (coll_items functions_ <> [] -> functions t = coll_items functions_).
Proof.
  intros H. apply BaseRelativityTensor_init_inv in H.
  destruct H as (_ & _ & _ & _ & _ & _ & _ & _ & Hvars & Hfuns).
  unfold py_not in *. split; intros Hne.
  - destruct (coll_items variables_); [contradiction|exact Hvars].
  - destruct (coll_items functions_); [contradiction|exact Hfuns].
Qed.

(** X11: with [functions] left empty, the stored functions are exactly the
    applied and the bare undefined functions of the entries of the array,
    each listed once. *)
Theorem auto_functions_spec (arr_ : py_arr_arg) (syms_ : pycoll)
  (config_ : pyobj) (pm : option MetricTensor)
  (variables_ functions_ : pycoll) (name_ : option string)
  (t : BaseRelativityTensor) :
  coll_items functions_ = [] ->
  BaseRelativityTensor_init arr_ syms_ config_ pm variables_ functions_ name_
  = Ok t ->
  (forall f, In f (functions t) <->
     exists e, In e (array_entries (arr (base t))) /\
               (In f (atoms_AppliedUndef e) \/ In f (atoms_UndefinedFunction e)))
  /\ NoDup (functions t).
Proof.
  intros Hempty H. apply BaseRelativityTensor_init_inv in H.
  destruct H as (_ & _ & _ & _ & _ & _ & _ & _ & _ & Hfuns).
  unfold py_not in Hfuns. rewrite Hempty in Hfuns. rewrite Hfuns.
  unfold array_undefined_functions. split.
  - intros f. rewrite nodup_In, in_app_iff, !in_flat_map. split.
    + intros [(e & He & Hf)|(e & He & Hf)]; exists e; auto.
    + intros (e & He & [Hf|Hf]); [left|right]; exists e; auto.
  - apply NoDup_nodup.
Qed.

End BaseRelativityTensorConstructor.

(** ** [tensor_lambdify] *)

Section LambdifyProperties.
Context {SE : SympyExpr}.
Variable Callable : Type.
Variable lambdify : list string -> NDimArray -> Callable.

(** X13: when the variables were computed by the constructor, the argument
    tuple of [tensor_lambdify()] names every free symbol of every entry of
    the array. *)
Theorem tensor_lambdify_covers (arr_ : py_arr_arg) (syms_ : pycoll)
  (config_ : pyobj) (pm : option MetricTensor)
  (variables_ functions_ : pycoll) (name_ : option string)
  (t : BaseRelativityTensor) :
  coll_items variables_ = [] ->
  BaseRelativityTensor_init arr_ syms_ config_ pm variables_ functions_ name_
  = Ok t ->
  forall e v,
    In e (array_entries (arr (base t))) -> In v (free_symbols e) ->
    In v (fst (tensor_lambdify lambdify t [])).
Proof.
  intros Hempty H e v He Hv. simpl. apply in_or_app.
  destruct (in_dec string_dec v (syms t)) as [Hs|Hs]; [left; exact Hs|].
  right.
  destruct (@auto_variables_facts _ arr_ syms_ config_ pm variables_ functions_
              name_ t Hempty H) as (Hin & _).
  apply Hin. split; [|exact Hs]. exists e. auto.
Qed.

End LambdifyProperties.

(** ** The errors of the transform *)

Section TransformErrors.
Context {SE : SympyExpr}.








End TransformErrors.


(** ** The domain of the transform *)

Lemma string_length_append (a b : string) :
  String.length (a ++ b)%string = String.length a + String.length b.
Proof. induction a as [|x a IH]; simpl; auto. Qed.

Lemma zip_append_same (p a b : string) :
  zip (p ++ a)%string (p ++ b)%string = zip p p ++ zip a b.
Proof. induction p as [|x p IH]; simpl; [reflexivity|]. now rewrite IH. Qed.

Lemma config_loop_append (a b : string) :
  config_loop (a ++ b)%string = config_loop a && config_loop b.
Proof.
  induction a as [|x a IH]; simpl; [reflexivity|].
  destruct (negb (Ascii.eqb x "l") && negb (Ascii.eqb x "u")); auto.
Qed.

Section TransformDomain.
Context {SE : SympyExpr}.

Lemma sem_loop_app (metric : MetricTensor) (d : nat) (l1 l2 : list Z) :
  forall i0 t,
    sem_loop metric d i0 (l1 ++ l2) t
    = sem_loop metric d (i0 + length l1) l2 (sem_loop metric d i0 l1 t).
Proof.
  induction l1 as [|a l1 IH]; intros i0 t; simpl.
  - now rewrite Nat.add_0_r.
  - rewrite IH. f_equal. lia.
Qed.

Lemma sem_loop_noop (metric : MetricTensor) (d n : nat) :
  forall i0 t, sem_loop metric d i0 (repeat NoOp n) t = t.
Proof. induction n as [|n IH]; intros i0 t; simpl; auto. Qed.

Lemma acted_axes_app (d : nat) (l1 l2 : list Z) (s : list nat) :
  forall i0,
    acted_axes d i0 (l1 ++ l2) s <->
    acted_axes d i0 l1 s /\ acted_axes d (i0 + length l1) l2 s.
Proof.
  induction l1 as [|a l1 IH]; intros i0; simpl.
  - rewrite Nat.add_0_r. tauto.
  - rewrite IH. replace (i0 + S (length l1)) with (S i0 + length l1) by lia.
    tauto.
Qed.

Lemma acted_axes_noop (d n : nat) (s : list nat) :
  forall i0, acted_axes d i0 (repeat NoOp n) s.
Proof.
  induction n as [|n IH]; intros i0; simpl; auto.
  split; [intros H; now contradiction H|apply IH].
Qed.

Lemma uniform_acted_axes (d : nat) (acts : list Z) (s : list nat) :
  Forall (fun x => x = d) s ->
  forall i0, i0 + length acts <= length s -> acted_axes d i0 acts s.
Proof.
  intros Hu. induction acts as [|a acts IH]; intros i0 Hlen; simpl in *; auto.
  split.
  - intros _. apply uniform_nth_error; [exact Hu|lia].
  - apply IH. lia.
Qed.

Lemma sem_loop_congr_acted (metric : MetricTensor) (d : nat) (acts : list Z) :
  forall i0 t t',
    acted_axes d i0 acts (shape t) -> array_eq t t' ->
    array_eq (sem_loop metric d i0 acts t) (sem_loop metric d i0 acts t').
Proof.
  induction acts as [|a acts IH]; intros i0 t t' Hax Heq; simpl; auto.
  destruct Hax as [Ha Hrest].
  destruct (Z.eqb_spec a 0) as [E|Hne].
  - now apply IH.
  - apply IH; [exact Hrest|]. apply raise_at_congr; auto.
Qed.

Lemma chain_loop_acted (metric : MetricTensor) (d : nat) (acts : list Z) :
  square_metric d metric -> Forall is_action acts ->
  forall i0 t,
    acted_axes d i0 acts (shape t) ->
    exists r,
      chain_loop metric (combine (seq i0 (length acts)) acts) t = Ok r /\
      array_eq r (sem_loop metric d i0 acts t).
Proof.
  intros Hsq Hacts. induction Hacts as [|a acts Ha _ IH]; intros i0 t Hax.
  - exists t. split; [reflexivity|apply array_eq_refl].
  - cbn [length seq combine chain_loop sem_loop]. destruct Hax as [Hi Hrest].
    destruct (Z.eq_dec a 0) as [E|Hne].
    + subst a. unfold chain_step. simpl. now apply IH.
    + specialize (Hi Hne).
      destruct (@chain_step_raise_at _ metric i0 a t d Hsq Ha Hne Hi)
        as (r1 & Hr1 & Hq1).
      rewrite Hr1. cbn [bind].
      assert (Hs1 : shape r1 = shape t) by apply Hq1.
      destruct (IH (S i0) r1) as (r & Hr & Hq); [now rewrite Hs1|].
      exists r. split; [exact Hr|].
      apply Z.eqb_neq in Hne. rewrite Hne.
      eapply array_eq_trans; [exact Hq|].
      apply sem_loop_congr_acted; [now rewrite Hs1|exact Hq1].
Qed.

(** The transform on a tensor whose changed axes have the extent of the
    metric. *)
Lemma change_config_on_acted_axes (T : Tensor) (metric : MetricTensor)
  (newconfig : string) (d : nat) :
  String.length newconfig = String.length (config T) ->
  _config_checker (PyStr newconfig) = true ->
  square_metric d metric ->
  acted_axes d 0 (_difference_list newconfig (config T)) (shape (arr T)) ->
  exists r,
    _change_config T metric (PyStr newconfig) = Ok r /\
    shape r = shape (arr T) /\
    array_eq r (sem_loop metric d 0 (_difference_list newconfig (config T))
                         (arr T)).
Proof.
  intros Hlen Hchk Hsq Hax.
  rewrite change_config_str, Hlen, Nat.eqb_refl, Hchk. cbn [andb negb].
  unfold chain_config_change, enumerate, tensor.
  destruct (@chain_loop_acted metric d _ Hsq
              (difference_list_actions newconfig (config T)) 0 (arr T) Hax)
    as (r & Hr & Hq).
  exists r. split; [exact Hr|]. split; [|exact Hq].
  destruct Hq as [Hs _]. rewrite Hs. apply sem_loop_shape.
Qed.

(** X16: the transform needs the metric's extent only on the axes whose
    marker changes.  With both forms [d] by [d] and every such axis an axis
    of the array of extent [d], whatever the rank and the other extents,
    it succeeds, keeps the shape, and each changed axis in turn has been
    contracted with the second axis of its metric form. *)
Theorem change_config_acted_axes (T : Tensor) (metric : MetricTensor)
  (newconfig : string) (d : nat) :
  String.length newconfig = String.length (config T) ->
  _config_checker (PyStr newconfig) = true ->
  square_metric d metric ->
  acted_axes d 0 (_difference_list newconfig (config T)) (shape (arr T)) ->
  exists r,
    _change_config T metric (PyStr newconfig) = Ok r /\
    shape r = shape (arr T) /\
    array_eq r (sem_loop metric d 0 (_difference_list newconfig (config T))
                         (arr T)).
Proof.
  intros Hlen Hchk Hsq Hax.
  destruct (@change_config_on_acted_axes T metric newconfig d Hlen Hchk Hsq Hax)
    as (r & Hr & Hs & Hq).
  exists r. auto.
Qed.

Lemma chain_loop_first (metric : MetricTensor) (acts : list Z) (e : exn) :
  forall i0 i a t,
    first_action i0 acts = Some (i, a) ->
    chain_step metric i a t = Err e ->
    chain_loop metric (combine (seq i0 (length acts)) acts) t = Err e.
Proof.
  induction acts as [|x acts IH]; intros i0 i a t Hf Hs; simpl in *;
    [discriminate|].
  destruct (x =? 0)%Z eqn:E.
  - unfold chain_step at 1. rewrite E. cbn [bind]. eapply IH; eauto.
  - injection Hf as <- <-. now rewrite Hs.
Qed.

Lemma first_action_is_action (acts : list Z) :
  Forall is_action acts ->
  forall i0 i a, first_action i0 acts = Some (i, a) ->
                 is_action a /\ a <> 0%Z.
Proof.
  induction 1 as [|x acts Hx _ IH]; intros i0 i a Hf; simpl in Hf;
    [discriminate|].
  destruct (x =? 0)%Z eqn:E.
  - eapply IH; eauto.
  - injection Hf as <- <-. apply Z.eqb_neq in E. auto.
Qed.

(** X17: the first axis whose marker changes decides a failure: when the
    array has no such axis the transform raises the IndexError of the
    contraction, and when that axis has not the extent of the second axis
    of the metric form it raises its ValueError; in both cases nothing is
    returned. *)
Theorem change_config_first_axis (T : Tensor) (metric : MetricTensor)
  (newconfig : string) (i : nat) (a : Z) (m0 d : nat) :
  String.length newconfig = String.length (config T) ->
  _config_checker (PyStr newconfig) = true ->
  first_action 0 (_difference_list newconfig (config T)) = Some (i, a) ->
  shape (spec_metric_form metric a) = [m0; d] ->
  (nth_error (shape (arr T)) i = None ->
   _change_config T metric (PyStr newconfig)
   = Err (IndexError "tuple index out of range")) /\
  (forall x, nth_error (shape (arr T)) i = Some x -> x <> d ->
   _change_config T metric (PyStr newconfig)
   = Err (ValueError "cannot contract between axes of different dimension")).
Proof.
  intros Hlen Hchk Hf Hm.
  destruct (@first_action_is_action _
              (difference_list_actions newconfig (config T)) 0 i a Hf)
    as [Ha Hne].
  assert (Hstep : forall e,
    tensorcontraction (tensorproduct (spec_metric_form metric a) (arr T))
                      1 (2 + i) = Err e ->
    _change_config T metric (PyStr newconfig) = Err e).
  { intros e He.
    rewrite change_config_str, Hlen, Nat.eqb_refl, Hchk. cbn [andb negb].
    unfold chain_config_change, enumerate, tensor.
    eapply chain_loop_first; [exact Hf|].
    unfold chain_step. apply Z.eqb_neq in Hne. rewrite Hne.
    apply Z.eqb_neq in Hne. rewrite (@met_dict_action _ metric a Ha Hne).
    cbn [bind]. now rewrite He. }
  split.
  - intros Hnone. apply Hstep. unfold tensorcontraction, tensorproduct.
    simpl shape. rewrite Hm. simpl. now rewrite Hnone.
  - intros x Hx Hxd. apply Hstep. unfold tensorcontraction, tensorproduct.
    simpl shape. rewrite Hm. simpl. rewrite Hx.
    apply Nat.eqb_neq in Hxd. rewrite Nat.eqb_sym, Hxd. reflexivity.
Qed.

(** X18: changing the marker of one axis [i] (the configurations agree
    elsewhere) gives the array whose entry at [idx] is the simplified sum
    over [k] of [m[idx_i, k] * t[idx with k at axis i]], where [m] is the
    contravariant form when the new marker is ['u'] and the covariant form
    otherwise: the axis is contracted with the second axis of the form. *)
Theorem change_one_index (T : Tensor) (metric : MetricTensor)
  (pre post : string) (old_ch new_ch : ascii) (d : nat) :
  config T = (pre ++ String old_ch post)%string ->
  new_ch <> old_ch ->
  _config_checker (PyStr (pre ++ String new_ch post)%string) = true ->
  square_metric d metric ->
  nth_error (shape (arr T)) (String.length pre) = Some d ->
  exists r,
    _change_config T metric (PyStr (pre ++ String new_ch post)%string) = Ok r /\
    shape r = shape (arr T) /\
    forall idx, valid_index (shape (arr T)) idx ->
      item r idx
      = simplify
          (isum d (fun k =>
             expr_mul
               (item (if Ascii.eqb new_ch "u" then contravariant_form metric
                      else covariant_form metric)
                     [nth (String.length pre) idx 0; k])
               (item (arr T)
                     (insert_at (String.length pre) k
                                (pop_at (String.length pre) idx))))).
Proof.
  intros Hcfg Hne Hchk Hsq Hi.
  assert (Hd : _difference_list (pre ++ String new_ch post)%string (config T)
               = repeat NoOp (String.length pre)
                 ++ action_of (new_ch, old_ch)
                 :: repeat NoOp (String.length post)).
  { rewrite Hcfg, difference_list_map, zip_append_same, map_app.
    cbn [zip map]. now rewrite !zip_same_noop. }
  assert (Ha : action_of (new_ch, old_ch) <> 0%Z).
  { intros E. apply action_of_zero in E. contradiction. }
  destruct (@change_config_on_acted_axes T metric
              (pre ++ String new_ch post)%string d) as (r & Hr & Hs & Hq).
  - rewrite Hcfg, !string_length_append. reflexivity.
  - exact Hchk.
  - exact Hsq.
  - rewrite Hd. apply acted_axes_app. split; [apply acted_axes_noop|].
    rewrite repeat_length. simpl. split; [intros _; exact Hi|].
    apply acted_axes_noop.
  - exists r. split; [exact Hr|]. split; [exact Hs|].
    intros idx Hv. destruct Hq as [Hsr Hitem]. rewrite Hitem by now rewrite Hs.
    rewrite Hd, sem_loop_app, sem_loop_noop, repeat_length.
    cbn [sem_loop Nat.add].
    apply Z.eqb_neq in Ha. rewrite Ha. rewrite sem_loop_noop.
    cbn [raise_at item]. unfold raised_entry. f_equal.
    apply isum_ext. intros k _. f_equal. f_equal.
    unfold spec_metric_form, action_of, Raise.
    apply Ascii.eqb_neq in Hne. rewrite Hne.
    destruct (Ascii.eqb new_ch "u"); reflexivity.
Qed.

End TransformDomain.

Lemma change_config_acted_axes_witness :
  exists r,
    _change_config (SE := ZExpr)
      {| arr := MoreExamples.t23; _config := "ll"; _order := 2 |}
      Examples.g (PyStr "ul") = Ok r /\
    shape r = [2; 3] /\
    array_eq r (sem_loop Examples.g 2 0 (_difference_list "ul" "ll")
                         MoreExamples.t23).
Proof.
  apply (@change_config_acted_axes ZExpr
           {| arr := MoreExamples.t23; _config := "ll"; _order := 2 |}
           Examples.g "ul" 2); try reflexivity.
  - split; reflexivity.
  - simpl. repeat split; intros H; try reflexivity. now contradiction H.
Defined.

Lemma change_config_first_axis_witness :
  _change_config (SE := ZExpr)
    {| arr := Examples.v123; _config := "l"; _order := 1 |}
    Examples.g (PyStr "u")
  = Err (ValueError "cannot contract between axes of different dimension").
Proof.
  apply (proj2 (@change_config_first_axis ZExpr
           {| arr := Examples.v123; _config := "l"; _order := 1 |}
           Examples.g "u" 0 1%Z 2 2 eq_refl eq_refl eq_refl eq_refl) 3).
  - reflexivity.
  - lia.
Defined.

Lemma change_one_index_witness :
  exists r,
    _change_config (SE := ZExpr)
      {| arr := Examples.t_ll_arr; _config := "ll"; _order := 2 |}
      Examples.g (PyStr "ul") = Ok r /\
    shape r = [2; 2] /\
    forall idx, valid_index [2; 2] idx ->
      item r idx
      = isum (SE := ZExpr) 2 (fun k =>
          Z.mul (item Examples.g_contra [nth 0 idx 0; k])
                (item Examples.t_ll_arr (insert_at 0 k (pop_at 0 idx)))).
Proof.
  apply (@change_one_index ZExpr
           {| arr := Examples.t_ll_arr; _config := "ll"; _order := 2 |}
           Examples.g "" "l" "l"%char "u"%char 2); try reflexivity.
  - discriminate.
  - split; reflexivity.
Defined.

(** ** Conversions compose *)

Section Composition.
Context {SE : SympyExpr}.
Hypothesis Eth : semi_ring_theory S_Zero S_One expr_add expr_mul eq.
Hypothesis simplify_sound : forall e : Expr, simplify e = e.

Add Ring ExprRing'' : Eth.

Lemma sem_loop_compose (metric : MetricTensor) (d : nat)
  (abcs : list (Z * Z * Z)) :
  exact_inverse d metric -> Forall composed abcs ->
  forall i0 t,
    uniform_shape d t -> i0 + length abcs <= rank t ->
    array_eq
      (sem_loop metric d i0 (map (fun x => snd (fst x)) abcs)
         (sem_loop metric d i0 (map (fun x => fst (fst x)) abcs) t))
      (sem_loop metric d i0 (map snd abcs) t).
Proof.
  intros [Hinv1 Hinv2] Hall.
  induction Hall as [|[[a b] c] abcs Habc _ IH]; intros i0 t Hu Hlen.
  - apply array_eq_refl.
  - simpl in Hlen. unfold rank in Hlen. cbn [map fst snd sem_loop].
    set (F := map (fun x => fst (fst x)) abcs) in *.
    set (G := map (fun x => snd (fst x)) abcs) in *.
    set (H := map snd abcs) in *.
    assert (HlF : length F = length abcs) by apply length_map.
    assert (Hi : nth_error (shape t) i0 = Some d)
      by (apply uniform_nth_error; [exact Hu|lia]).
    assert (Hmove : forall m t',
      shape t' = shape t ->
      array_eq
        (sem_loop metric d (S i0) G
           (raise_at m d i0 (sem_loop metric d (S i0) F t')))
        (sem_loop metric d (S i0) G
           (sem_loop metric d (S i0) F (raise_at m d i0 t')))).
    { intros m t' Hs'. apply sem_loop_congr.
      - unfold uniform_shape. simpl. rewrite sem_loop_shape, Hs'. exact Hu.
      - unfold rank. simpl. rewrite sem_loop_shape, Hs'. unfold G.
        rewrite length_map. lia.
      - apply array_eq_sym. apply sem_loop_commute; auto.
        + unfold uniform_shape. rewrite Hs'. exact Hu.
        + unfold rank. rewrite HlF, Hs'. lia. }
    assert (Hcancel : forall ma mb,
      product_is_identity d mb ma ->
      array_eq
        (sem_loop metric d (S i0) G
           (raise_at mb d i0 (sem_loop metric d (S i0) F (raise_at ma d i0 t))))
        (sem_loop metric d (S i0) H t)).
    { intros ma mb Hinv.
      eapply array_eq_trans; [apply Hmove; reflexivity|].
      eapply array_eq_trans; [|apply (IH (S i0) t); [exact Hu|unfold rank; lia]].
      apply sem_loop_congr.
      - unfold uniform_shape. rewrite sem_loop_shape. exact Hu.
      - unfold rank. rewrite sem_loop_shape. simpl. unfold G.
        rewrite length_map. lia.
      - apply sem_loop_congr.
        + exact Hu.
        + unfold rank. simpl. rewrite HlF. lia.
        + now apply raise_at_cancel. }
    destruct Habc as [[-> ->]|[[-> ->]|[Hopp ->]]].
    + change (0 =? 0)%Z with true. cbv iota.
      destruct (b =? 0)%Z.
      * apply IH; auto. unfold rank. lia.
      * eapply array_eq_trans; [apply Hmove; reflexivity|].
        apply (IH (S i0) (raise_at (spec_metric_form metric b) d i0 t)).
        -- exact Hu.
        -- unfold rank. simpl. lia.
    + change (0 =? 0)%Z with true. cbv iota.
      destruct (a =? 0)%Z.
      * apply IH; auto. unfold rank. lia.
      * apply (IH (S i0) (raise_at (spec_metric_form metric a) d i0 t)).
        -- exact Hu.
        -- unfold rank. simpl. lia.
    + destruct Hopp as [[-> ->]|[[-> ->]|[-> ->]]]; simpl.
      * apply IH; auto. unfold rank. lia.
      * apply Hcancel. exact Hinv2.
      * apply Hcancel. exact Hinv1.
Qed.

End Composition.

Lemma action_of_composed (x y z : ascii) :
  (x = "u"%char \/ x = "l"%char) -> (y = "u"%char \/ y = "l"%char) ->
  (z = "u"%char \/ z = "l"%char) ->
  composed (action_of (y, x), action_of (z, y), action_of (z, x)).
Proof.
  unfold composed, opposite.
  intros [-> | ->] [-> | ->] [-> | ->]; simpl; auto 8.
Qed.

Lemma diff_composed (c1 c2 c3 : string) :
  only_markers c1 -> only_markers c2 -> only_markers c3 ->
  String.length c2 = String.length c1 ->
  String.length c3 = String.length c1 ->
  exists abcs,
    Forall composed abcs /\
    length abcs = String.length c1 /\
    map (fun x => fst (fst x)) abcs = _difference_list c2 c1 /\
    map (fun x => snd (fst x)) abcs = _difference_list c3 c2 /\
    map snd abcs = _difference_list c3 c1.
Proof.
  rewrite !difference_list_map. revert c2 c3.
  induction c1 as [|x c1 IH]; intros [|y c2] [|z c3] H1 H2 H3 L2 L3;
    simpl in L2, L3; try discriminate.
  - exists []. simpl. auto.
  - destruct H1 as [Hx H1], H2 as [Hy H2], H3 as [Hz H3].
    destruct (IH c2 c3 H1 H2 H3) as (abcs & Hall & Hl & Ha & Hb & Hc);
      try lia.
    exists ((action_of (y, x), action_of (z, y), action_of (z, x)) :: abcs).
    cbn [zip map fst snd length]. rewrite Ha, Hb, Hc, Hl.
    repeat split; auto. constructor; auto. now apply action_of_composed.
Qed.

Section CompositionTheorems.
Context {SE : SympyExpr}.

(** X19: with a metric whose forms are exact inverses (scalars obeying the
    laws of a commutative semiring, [simplify] returning an equal scalar),
    converting a tensor to a configuration [c2], wrapping the result under
    [c2] and converting it to [c3] gives an array equal to the direct
    conversion of the tensor to [c3]. *)
Theorem change_config_compose (a : py_arr_arg) (c : pyobj) (T : Tensor)
  (metric : MetricTensor) (c2 c3 : string) (d : nat) :
  semi_ring_theory S_Zero S_One expr_add expr_mul eq ->
  (forall e : Expr, simplify e = e) ->
  Tensor_init a c = Ok T ->
  rank (arr T) = order T -> uniform_shape d (arr T) ->
  String.length c2 = order T -> _config_checker (PyStr c2) = true ->
  String.length c3 = order T -> _config_checker (PyStr c3) = true ->
  square_metric d metric -> exact_inverse d metric ->
  exists A2 T2 A3 A13,
    _change_config T metric (PyStr c2) = Ok A2 /\
    Tensor_init (ArgArray A2) (PyStr c2) = Ok T2 /\
    _change_config T2 metric (PyStr c3) = Ok A3 /\
    _change_config T metric (PyStr c3) = Ok A13 /\
    array_eq A3 A13.
Proof.
  intros Eth Hsimp Hinit Hrank Hu Hlen2 Hchk2 Hlen3 Hchk3 Hsq Hinv.
  destruct (@Tensor_init_ok _ a c T Hinit) as (Hc & -> & Ho & _).
  rewrite Ho in Hrank, Hlen2, Hlen3.
  destruct (@change_config_sem _ T metric c2 d Hrank Hlen2 Hchk2 Hsq Hu)
    as (A2 & HA2 & Hq2).
  destruct (@change_config_sem _ T metric c3 d Hrank Hlen3 Hchk3 Hsq Hu)
    as (A13 & HA13 & Hq13).
  assert (Hs2 : shape A2 = shape (arr T)).
  { destruct Hq2 as [Hs _]. rewrite Hs. apply sem_loop_shape. }
  set (T2 := {| arr := A2; _config := c2; _order := String.length c2 |}).
  destruct (@change_config_sem _ T2 metric c3 d) as (A3 & HA3 & Hq3).
  - unfold rank. simpl. rewrite Hs2. fold (rank (arr T)). congruence.
  - simpl. congruence.
  - exact Hchk3.
  - exact Hsq.
  - unfold uniform_shape. simpl. rewrite Hs2. exact Hu.
  - exists A2, T2, A3, A13. split; [exact HA2|].
    split; [now apply Tensor_init_array|].
    split; [exact HA3|]. split; [exact HA13|]. simpl in Hq3.
    destruct (@diff_composed (config T) c2 c3) as
      (abcs & Hall & Hl & Ha & Hb & Hc3);
      try (apply config_loop_only_markers; assumption); try assumption.
    eapply array_eq_trans; [exact Hq3|].
    eapply array_eq_trans; [|apply array_eq_sym; exact Hq13].
    eapply array_eq_trans.
    + apply sem_loop_congr.
      * unfold uniform_shape. rewrite Hs2. exact Hu.
      * unfold rank. rewrite Hs2. fold (rank (arr T)).
        rewrite difference_list_length; lia.
      * exact Hq2.
    + rewrite <- Ha, <- Hb, <- Hc3.
      apply sem_loop_compose; auto. lia.
Qed.

(** The identity as metric form leaves an axis as it is. *)
Lemma raise_at_identity (m t : NDimArray) (d i : nat) :
  semi_ring_theory S_Zero S_One expr_add expr_mul eq ->
  (forall e : Expr, simplify e = e) ->
  identity_form d m -> nth_error (shape t) i = Some d ->
  array_eq (raise_at m d i t) t.
Proof.
  intros Eth Hsimp Hid Hi.
  assert (Hlt : i < length (shape t)) by (apply nth_error_Some; congruence).
  split; [reflexivity|]. intros idx Hv. simpl in Hv.
  assert (Hlen : length idx = length (shape t))
    by now apply valid_index_length.
  assert (Ha : nth i idx 0 < d).
  { rewrite <- (nth_error_nth _ _ 0 Hi). now apply valid_index_nth. }
  simpl. unfold raised_entry. rewrite Hsimp.
  rewrite (@isum_ext _ d _
             (fun k => expr_mul (delta (nth i idx 0) k)
                                (item t (insert_at i k (pop_at i idx))))).
  - rewrite (isum_delta Eth) by exact Ha.
    rewrite insert_pop_nth by lia. reflexivity.
  - intros k Hk. cbv beta. now rewrite Hid.
Qed.

Lemma sem_loop_identity (metric : MetricTensor) (d : nat) (acts : list Z) :
  semi_ring_theory S_Zero S_One expr_add expr_mul eq ->
  (forall e : Expr, simplify e = e) ->
  identity_form d (covariant_form metric) ->
  identity_form d (contravariant_form metric) ->
  forall i0 t,
    acted_axes d i0 acts (shape t) ->
    array_eq (sem_loop metric d i0 acts t) t.
Proof.
  intros Eth Hsimp Hc Hu.
  induction acts as [|a acts IH]; intros i0 t Hax; simpl.
  - apply array_eq_refl.
  - destruct Hax as [Ha Hrest]. destruct (Z.eqb_spec a 0) as [E|Hne].
    + now apply IH.
    + eapply array_eq_trans; [apply IH; exact Hrest|].
      apply raise_at_identity; auto.
      unfold spec_metric_form. now destruct (a =? Raise)%Z.
Qed.

(** X20: when both forms of the metric are the [d] by [d] identity, every
    accepted change of configuration on axes of extent [d] returns an array
    equal to the tensor's array. *)
Theorem change_config_identity_metric (T : Tensor) (metric : MetricTensor)
  (newconfig : string) (d : nat) :
  semi_ring_theory S_Zero S_One expr_add expr_mul eq ->
  (forall e : Expr, simplify e = e) ->
  String.length newconfig = String.length (config T) ->
  _config_checker (PyStr newconfig) = true ->
  square_metric d metric ->
  identity_form d (covariant_form metric) ->
  identity_form d (contravariant_form metric) ->
  acted_axes d 0 (_difference_list newconfig (config T)) (shape (arr T)) ->
  exists r,
    _change_config T metric (PyStr newconfig) = Ok r /\ array_eq r (arr T).
Proof.
  intros Eth Hsimp Hlen Hchk Hsq Hc Hu Hax.
  destruct (@change_config_on_acted_axes _ T metric newconfig d Hlen Hchk
              Hsq Hax) as (r & Hr & _ & Hq).
  exists r. split; [exact Hr|].
  eapply array_eq_trans; [exact Hq|].
  now apply sem_loop_identity.
Qed.

End CompositionTheorems.

Lemma change_config_compose_witness :
  exists A2 T2 A3 A13,
    _change_config (SE := ZExpr)
      {| arr := Examples.t_ll_arr; _config := "ll"; _order := 2 |}
      Examples.g (PyStr "ul") = Ok A2 /\
    Tensor_init (ArgArray A2) (PyStr "ul") = Ok T2 /\
    _change_config T2 Examples.g (PyStr "lu") = Ok A3 /\
    _change_config (SE := ZExpr)
      {| arr := Examples.t_ll_arr; _config := "ll"; _order := 2 |}
      Examples.g (PyStr "lu") = Ok A13 /\
    array_eq A3 A13.
Proof.
  apply (@change_config_compose ZExpr (ArgArray Examples.t_ll_arr)
           (PyStr "ll")
           {| arr := Examples.t_ll_arr; _config := "ll"; _order := 2 |}
           Examples.g "ul" "lu" 2); try reflexivity.
  - exact Z_semi_ring.
  - repeat constructor.
  - split; reflexivity.
  - exact g_exact_inverse.
Defined.

Lemma euclid_identity : identity_form (SE := ZExpr) 2 MoreExamples.eye2.
Proof.
  intros a b Ha Hb.
  destruct a as [|[|a]]; destruct b as [|[|b]]; try lia; reflexivity.
Defined.

Lemma change_config_identity_metric_witness :
  exists r,
    _change_config (SE := ZExpr)
      {| arr := MoreExamples.t23; _config := "ll"; _order := 2 |}
      MoreExamples.euclid (PyStr "ul") = Ok r /\
    array_eq r MoreExamples.t23.
Proof.
  apply (@change_config_identity_metric ZExpr
           {| arr := MoreExamples.t23; _config := "ll"; _order := 2 |}
           MoreExamples.euclid "ul" 2); try reflexivity.
  - exact Z_semi_ring.
  - split; reflexivity.
  - exact euclid_identity.
  - exact euclid_identity.
  - simpl. repeat split; intros H; try reflexivity. now contradiction H.
Defined.

(** ** The constructor and [tensor_lambdify] on [[a * x + f(x)]] *)

Example axf_constructed :
  exists t,
    BaseRelativityTensor_init (SE := SymExpr) (ArgNested MoreExamples.axf_arr)
      (CList ["x"]) (PyStr "l") None (CList []) (CList []) None = Ok t /\
    variables t = ["a"] /\ functions t = ["f(x)"] /\ dims t = 1 /\
    fst (tensor_lambdify (fun _ _ => tt) t []) = ["x"; "a"].
Proof. eexists. split; [reflexivity|]. repeat split. Qed.

Lemma auto_variables_spec_witness :
  exists t,
    BaseRelativityTensor_init (SE := SymExpr) (ArgNested MoreExamples.axf_arr)
      (CList ["x"]) (PyStr "l") None (CList []) (CList []) None = Ok t /\
    (forall v, In v (variables t) <->
       (exists e, In e (array_entries (arr (base t))) /\
                  In v (free_symbols e))
       /\ ~ In v (syms t)) /\
    NoDup (variables t) /\
    Sorted name_le (variables t).
Proof.
  eexists. split; [reflexivity|].
  apply (@auto_variables_spec SymExpr (ArgNested MoreExamples.axf_arr)
           (CList ["x"]) (PyStr "l") None (CList []) (CList []) None _
           eq_refl eq_refl).
Defined.

Lemma explicit_collections_verbatim_witness :
  exists t,
    BaseRelativityTensor_init (SE := SymExpr) (ArgNested MoreExamples.axf_arr)
      (CList ["x"]) (PyStr "l") None (CTuple ["x"; "b"]) (CSet ["g"]) None
    = Ok t /\
    variables t = ["x"; "b"] /\ functions t = ["g"].
Proof.
  eexists. split; [reflexivity|].
  destruct (@explicit_collections_verbatim SymExpr
              (ArgNested MoreExamples.axf_arr) (CList ["x"]) (PyStr "l") None
              (CTuple ["x"; "b"]) (CSet ["g"]) None _ eq_refl) as [Hv Hf].
  split; [apply Hv|apply Hf]; discriminate.
Defined.

Lemma auto_functions_spec_witness :
  exists t,
    BaseRelativityTensor_init (SE := SymExpr) (ArgNested MoreExamples.axf_arr)
      (CList ["x"]) (PyStr "l") None (CList []) (CList []) None = Ok t /\
    (forall f, In f (functions t) <->
       exists e, In e (array_entries (arr (base t))) /\
                 (In f (atoms_AppliedUndef e) \/
                  In f (atoms_UndefinedFunction e))) /\
    NoDup (functions t).
Proof.
  eexists. split; [reflexivity|].
  apply (@auto_functions_spec SymExpr (ArgNested MoreExamples.axf_arr)
           (CList ["x"]) (PyStr "l") None (CList []) (CList []) None _
           eq_refl eq_refl).
Defined.


Lemma tensor_lambdify_covers_witness :
  exists t,
    BaseRelativityTensor_init (SE := SymExpr) (ArgNested MoreExamples.axf_arr)
      (CList ["x"]) (PyStr "l") None (CList []) (CList []) None = Ok t /\
    forall e v,
      In e (array_entries (arr (base t))) -> In v (free_symbols e) ->
      In v (fst (tensor_lambdify (fun _ _ => tt) t [])).
Proof.
  eexists. split; [reflexivity|].
  apply (@tensor_lambdify_covers SymExpr unit (fun _ _ => tt)
           (ArgNested MoreExamples.axf_arr) (CList ["x"]) (PyStr "l") None
           (CList []) (CList []) None _ eq_refl eq_refl).
Defined.

